(** * YASMI: a hierarchical, concurrent state machine framework

    A shallow embedding of [yasmi.py].  Python objects live in a store that is
    indexed by attribute: a reference is a natural number (allocation order),
    and every mutable attribute of the classes is a finite map from references
    to the attribute's value.  Methods are computations in a state-and-exception
    monad over that store; an exception leaves the mutations made so far in
    place, as in Python.

    The embedding follows one task.  An [await] is a call: the points where
    the event loop may run another task ([asyncio.sleep], the user's hooks)
    are not modelled, nor are the ticker task of [StateMachine.start] and the
    [asyncio.gather] of [ConcurrentCompositeState._transitions].  The hooks
    [entry_actions], [do_actions] and [exit_actions], which do nothing unless
    a client overrides them, and the transition actions leave a record in a
    trace, next to the lines of the PlantUML logger; the lines of the other
    logger are left out.  The registered transition functions are the
    client's: the table holds handles, and whoever runs [do] says what a
    handle does. *)

From Stdlib Require Import ZArith String.
From stdpp Require Import gmap list strings sorting.

Abbreviation ref := nat (only parsing).
Abbreviation handle := nat (only parsing).
Abbreviation action := nat (only parsing).

(** ** Classes *)

(** [_InitialState], [_FinalState], [_HistoryState], [_ConcurrentHistoryState]. *)
Inductive pseudo := Initial | Final | History | ConcurrentHistory.

(** [CompositeState], [StateMachine(CompositeState)], [ConcurrentCompositeState]. *)
Inductive composite := Plain | Machine | Concurrent.

(** The immutable part of a state object: its class and the attributes that
    [__init__] sets once ([_super_state], [_initial], [_final], [_history]). *)
Inductive Obj :=
| SimpleState (super_state : option ref)
| PseudoState (k : pseudo) (super_state : ref)
| CompositeState (k : composite) (super_state : option ref)
                 (initial final : ref) (history : option ref).

Definition _super_state (o : Obj) : option ref :=
  match o with
  | SimpleState s => s
  | PseudoState _ s => Some s
  | CompositeState _ s _ _ _ => s
  end.

(** [isinstance(o, (_InitialState, _FinalState, _BaseHistoryState))] *)
Definition is_pseudo (o : Obj) : bool :=
  match o with PseudoState _ _ => true | _ => false end.

(** [isinstance(o, _FinalState)] *)
Definition is_final (o : Obj) : bool :=
  match o with PseudoState Final _ => true | _ => false end.

(** [isinstance(o, ConcurrentCompositeState)] *)
Definition is_concurrent (o : Obj) : bool :=
  match o with CompositeState Concurrent _ _ _ _ => true | _ => false end.

(** [isinstance(o, StateMachine)] *)
Definition is_state_machine (o : Obj) : bool :=
  match o with CompositeState Machine _ _ _ _ => true | _ => false end.

(** ** The active-state stack *)

(** [ActiveStates = List[Union[State, Set[State]]]]; the top is the last
    element.  States compare by identity, so a set of states is a set of
    references. *)
Inductive Frame :=
| Single (s : ref)
| Region (ss : gset ref).

(** ** Trace *)

(** The user-overridable hooks of a state. *)
Inductive hook := entry_actions | do_actions | exit_actions.

(** Lines of the PlantUML logger. *)
Inductive puml :=
| p_activate (s : ref)      (* "activate %s" *)
| p_entry (s : ref)         (* "%s -> %s : entry()" *)
| p_do (s : ref)            (* "%s -> %s : do()" *)
| p_exit (s : ref)          (* "%s -> %s : exit()" *)
| p_deactivate (s : ref)    (* "deactivate %s" *)
| p_rnote (name : string).  (* "rnote over Events: %s" *)

(** What an observer sees: log lines, hook invocations (the default hooks do
    nothing; a recording mock, as in the test suite, shows when they run) and
    transition actions. *)
Inductive TraceEv :=
| Puml (l : puml)
| Call (h : hook) (s : ref)
| Action (a : action).

(** ** Exceptions *)

Inductive assertion :=
| super_state_is_None          (* "super state is None" *)
| top_should_be_a_set          (* "the top of the stack should be a set of concurrent states" *)
| not_at_top_of_stack          (* "... is not at top of stack ..." *)
| no_state_machine             (* assert in the [state_machine] property *)
| top_is_not_a_set             (* asserts of (de)activate_concurrent_state *)
| history_is_None              (* [assert self._history is not None] *)
| no_state_to_return_to        (* [assert (target_state := ...) is not None] *)
| value_is_None                (* "value should not be None" *)
| value_passed_is_None.        (* "value passed should not be None" *)

Inductive exn :=
| AssertionError (a : assertion)
| IndexError
| KeyError
| AttributeError
| RecursionError.

Inductive Res (A : Type) :=
| Ok (a : A)
| Raise (e : exn).
Arguments Ok {A} a.
Arguments Raise {A} e.

Section Yasmi.

(** Payload type of [EventWithValue]. *)
Context {T : Type}.

(** An [Event] (or [EventWithValue]) object.  A plain [Event] never touches
    [_value]. *)
Record EventObj := mkEvent {
  ev_state_machine : ref;       (* _state_machine *)
  ev_name : string;             (* _name *)
  ev_event : bool;              (* _event, an asyncio.Event *)
  ev_value : option T           (* EventWithValue._value *)
}.

(** ** The store *)

Record World := mkWorld {
  objs : gmap ref Obj;
  _state : gmap ref ref;                            (* CompositeState._state *)
  _states : gmap ref (list ref);                    (* ConcurrentCompositeState._states *)
  state_to_return_to : gmap ref (option ref);       (* _HistoryState *)
  states_to_return_to : gmap ref (list (option ref)); (* _ConcurrentHistoryState *)
  _transitions_per_state : gmap ref (gmap ref handle);
  active_states : gmap ref (list Frame);            (* StateMachine.active_states *)
  _tick_event : gmap ref bool;                      (* StateMachine._tick_event *)
  events : gmap ref EventObj;
  trace : list TraceEv;
  next_ref : ref
}.

Definition empty_world : World :=
  mkWorld ∅ ∅ ∅ ∅ ∅ ∅ ∅ ∅ ∅ [] 0.

Definition with_objs (f : gmap ref Obj → gmap ref Obj) (w : World) : World :=
  mkWorld (f (objs w)) (_state w) (_states w) (state_to_return_to w)
    (states_to_return_to w) (_transitions_per_state w) (active_states w)
    (_tick_event w) (events w) (trace w) (next_ref w).
Definition with_state (f : gmap ref ref → gmap ref ref) (w : World) : World :=
  mkWorld (objs w) (f (_state w)) (_states w) (state_to_return_to w)
    (states_to_return_to w) (_transitions_per_state w) (active_states w)
    (_tick_event w) (events w) (trace w) (next_ref w).
Definition with_states (f : gmap ref (list ref) → gmap ref (list ref)) (w : World) : World :=
  mkWorld (objs w) (_state w) (f (_states w)) (state_to_return_to w)
    (states_to_return_to w) (_transitions_per_state w) (active_states w)
    (_tick_event w) (events w) (trace w) (next_ref w).
Definition with_return (f : gmap ref (option ref) → gmap ref (option ref)) (w : World) : World :=
  mkWorld (objs w) (_state w) (_states w) (f (state_to_return_to w))
    (states_to_return_to w) (_transitions_per_state w) (active_states w)
    (_tick_event w) (events w) (trace w) (next_ref w).
Definition with_returns (f : gmap ref (list (option ref)) → gmap ref (list (option ref)))
    (w : World) : World :=
  mkWorld (objs w) (_state w) (_states w) (state_to_return_to w)
    (f (states_to_return_to w)) (_transitions_per_state w) (active_states w)
    (_tick_event w) (events w) (trace w) (next_ref w).
Definition with_transitions (f : gmap ref (gmap ref handle) → gmap ref (gmap ref handle))
    (w : World) : World :=
  mkWorld (objs w) (_state w) (_states w) (state_to_return_to w)
    (states_to_return_to w) (f (_transitions_per_state w)) (active_states w)
    (_tick_event w) (events w) (trace w) (next_ref w).
Definition with_active (f : gmap ref (list Frame) → gmap ref (list Frame)) (w : World) : World :=
  mkWorld (objs w) (_state w) (_states w) (state_to_return_to w)
    (states_to_return_to w) (_transitions_per_state w) (f (active_states w))
    (_tick_event w) (events w) (trace w) (next_ref w).
Definition with_tick (f : gmap ref bool → gmap ref bool) (w : World) : World :=
  mkWorld (objs w) (_state w) (_states w) (state_to_return_to w)
    (states_to_return_to w) (_transitions_per_state w) (active_states w)
    (f (_tick_event w)) (events w) (trace w) (next_ref w).
Definition with_events (f : gmap ref EventObj → gmap ref EventObj) (w : World) : World :=
  mkWorld (objs w) (_state w) (_states w) (state_to_return_to w)
    (states_to_return_to w) (_transitions_per_state w) (active_states w)
    (_tick_event w) (f (events w)) (trace w) (next_ref w).
Definition with_trace (f : list TraceEv → list TraceEv) (w : World) : World :=
  mkWorld (objs w) (_state w) (_states w) (state_to_return_to w)
    (states_to_return_to w) (_transitions_per_state w) (active_states w)
    (_tick_event w) (events w) (f (trace w)) (next_ref w).
Definition with_next (f : ref → ref) (w : World) : World :=
  mkWorld (objs w) (_state w) (_states w) (state_to_return_to w)
    (states_to_return_to w) (_transitions_per_state w) (active_states w)
    (_tick_event w) (events w) (trace w) (f (next_ref w)).

(** ** The monad: state, plus exceptions that keep the state *)

Definition M (A : Type) : Type := World → Res A * World.

Definition ret {A} (a : A) : M A := fun w => (Ok a, w).

Definition bind {A B} (c : M A) (k : A → M B) : M B :=
  fun w => match c w with
           | (Ok a, w') => k a w'
           | (Raise e, w') => (Raise e, w')
           end.

Definition raise {A} (e : exn) : M A := fun w => (Raise e, w).

Definition gets {A} (f : World → A) : M A := fun w => (Ok (f w), w).

Definition modify (f : World → World) : M unit := fun w => (Ok tt, f w).

(** Attribute read: a missing attribute is an [AttributeError]. *)
Definition attr {A} (f : World → gmap ref A) (r : ref) : M A :=
  fun w => match f w !! r with
           | Some a => (Ok a, w)
           | None => (Raise AttributeError, w)
           end.

Definition assert (b : bool) (a : assertion) : M unit :=
  if b then ret tt else raise (AssertionError a).

#[global] Instance M_ret : MRet M := @ret.
#[global] Instance M_bind : MBind M := λ A B k c, bind c k.

(** A read-only computation. *)
Definition reads {A} (f : World → Res A) : M A := fun w => (f w, w).

Definition log (e : TraceEv) : M unit := modify (with_trace (λ t, t ++ [e])).

(** ** class State *)

(** The [state_machine] property: walk up [_super_state] to the
    [StateMachine].  [limit] bounds the depth of the recursion, as the
    interpreter's recursion limit does. *)
Fixpoint state_machine (limit : nat) (self : ref) (os : gmap ref Obj) : Res ref :=
  match os !! self with
  | None => Raise AttributeError
  | Some o =>
      if is_state_machine o then Ok self
      else match _super_state o with
           | None => Raise (AssertionError no_state_machine)
           | Some p =>
               match limit with
               | 0 => Raise RecursionError
               | S n => state_machine n p os
               end
           end
  end.

(** [self.state_machine.active_states], with the machine that owns it. *)
Definition the_active_states (limit : nat) (self : ref) : M (ref * list Frame) :=
  m ← reads (λ w, state_machine limit self (objs w));
  stk ← attr active_states m;
  ret (m, stk).

(** [self.state_machine.active_states[-1]] *)
Definition top_of_stack (limit : nat) (self : ref) : M Frame :=
  '(_, stk) ← the_active_states limit self;
  match last stk with
  | Some f => ret f
  | None => raise IndexError
  end.

Definition activate (limit : nat) (self : ref) : M unit :=
  '(m, stk) ← the_active_states limit self;
  modify (with_active <[m := stk ++ [Single self]]>).

Definition deactivate (limit : nat) (self : ref) : M unit :=
  '(m, stk) ← the_active_states limit self;
  match last stk with
  | Some _ => modify (with_active <[m := removelast stk]>)
  | None => raise IndexError
  end.

Definition activate_concurrent_state (limit : nat) (self : ref) : M unit :=
  top ← top_of_stack limit self;
  match top with
  | Region _ => ret tt
  | Single _ =>
      '(m, stk) ← the_active_states limit self;
      modify (with_active <[m := stk ++ [Region ∅]]>)
  end;;
  '(m, stk) ← the_active_states limit self;
  match last stk with
  | Some (Region ss) =>
      modify (with_active <[m := removelast stk ++ [Region ({[self]} ∪ ss)]]>)
  | Some (Single _) => raise (AssertionError top_is_not_a_set)
  | None => raise IndexError
  end.

Definition deactivate_concurrent_state (limit : nat) (self : ref) : M unit :=
  '(m, stk) ← the_active_states limit self;
  match last stk with
  | Some (Region ss) =>
      if decide (self ∈ ss) then
        let ss' := ss ∖ {[self]} in
        modify (with_active <[m := removelast stk ++ [Region ss']]>);;
        '(m, stk) ← the_active_states limit self;
        match last stk with
        | Some (Region ss'') =>
            if decide (ss'' = ∅) then modify (with_active <[m := removelast stk]>)
            else ret tt
        | Some (Single _) => ret tt
        | None => raise IndexError
        end
      else raise KeyError
  | Some (Single _) => raise (AssertionError top_is_not_a_set)
  | None => raise IndexError
  end.

(** [isinstance(self._super_state, ConcurrentCompositeState)] *)
Definition super_is_concurrent (self : ref) : M bool :=
  o ← attr objs self;
  match _super_state o with
  | None => ret false
  | Some p => po ← attr objs p; ret (is_concurrent po)
  end.

Definition entry (self : ref) : M unit :=
  log (Puml (p_activate self));;
  log (Puml (p_entry self));;
  log (Call entry_actions self).

Definition State_do (self : ref) : M unit :=
  log (Puml (p_do self));;
  log (Call do_actions self).

(** [State.exit] *)
Definition State_exit (limit : nat) (self : ref) : M unit :=
  o ← attr objs self;
  if negb (is_pseudo o) then
    log (Puml (p_exit self));;
    log (Call exit_actions self);;
    assert (bool_decide (is_Some (_super_state o))) super_state_is_None;;
    conc ← super_is_concurrent self;
    (if conc : bool then
       top ← top_of_stack limit self;
       assert (match top with Region _ => true | Single _ => false end)
              top_should_be_a_set;;
       top ← top_of_stack limit self;
       assert (match top with
               | Region ss => bool_decide (self ∈ ss)
               | Single _ => false
               end) not_at_top_of_stack;;
       deactivate_concurrent_state limit self
     else
       top ← top_of_stack limit self;
       assert (match top with
               | Single s => bool_decide (self = s)
               | Region _ => false
               end) not_at_top_of_stack;;
       deactivate limit self : M unit);;
    log (Puml (p_deactivate self))
  else ret tt.

(** ** class CompositeState / ConcurrentCompositeState: exit *)

(** The part of [CompositeState.exit] between the child's exit and the
    inherited exit: remember the current child in the history, or reset. *)
Definition remember_or_reset (self : ref) : M unit :=
  o ← attr objs self;
  match o with
  | CompositeState _ _ ini fin hist =>
      s ← attr _state self;
      match hist with
      | Some h =>
          if bool_decide (s ≠ fin) then
            modify (with_return <[h := Some s]>);;
            modify (with_state <[self := h]>)
          else modify (with_state <[self := ini]>)
      | None => modify (with_state <[self := ini]>)
      end
  | _ => raise AttributeError
  end.

(** [CompositeState.exit]; [exit] is the virtual call [state.exit()]. *)
Definition CompositeState_exit (exit : ref → M unit) (limit : nat) (self : ref) : M unit :=
  s ← attr _state self;
  exit s;;
  remember_or_reset self;;
  State_exit limit self.

(** [for state in self._states: await state.exit()], from index [i], at most
    [n] more rounds; the list is read again at every round. *)
Fixpoint exit_regions (exit : ref → M unit) (self : ref) (i n : nat) : M unit :=
  match n with
  | 0 => ret tt
  | S n' =>
      l ← attr _states self;
      match l !! i with
      | Some s => exit s;; exit_regions exit self (S i) n'
      | None => ret tt
      end
  end.

(** [for i, state in enumerate(self._states): ...] of the history branch. *)
Fixpoint remember_regions (self h : ref) (i n : nat) : M unit :=
  match n with
  | 0 => ret tt
  | S n' =>
      l ← attr _states self;
      match l !! i with
      | Some s =>
          rs ← attr states_to_return_to h;
          (if bool_decide (i < length rs) then
             modify (with_returns <[h := <[i := Some s]> rs]>)
           else raise IndexError);;
          l ← attr _states self;
          modify (with_states <[self := <[i := h]> l]>);;
          remember_regions self h (S i) n'
      | None => ret tt
      end
  end.

(** [for i, state in enumerate(self._states): self._states[i] = self._initial] *)
Fixpoint reset_regions (self ini : ref) (i n : nat) : M unit :=
  match n with
  | 0 => ret tt
  | S n' =>
      l ← attr _states self;
      match l !! i with
      | Some _ =>
          modify (with_states <[self := <[i := ini]> l]>);;
          reset_regions self ini (S i) n'
      | None => ret tt
      end
  end.

(** [ConcurrentCompositeState.exit] *)
Definition ConcurrentCompositeState_exit (exit : ref → M unit) (limit : nat) (self : ref)
    : M unit :=
  l ← attr _states self;
  exit_regions exit self 0 (length l);;
  o ← attr objs self;
  match o with
  | CompositeState _ _ ini fin hist =>
      l ← attr _states self;
      match hist with
      | Some h =>
          if existsb (λ s, bool_decide (s ≠ fin)) l
          then remember_regions self h 0 (length l)
          else reset_regions self ini 0 (length l)
      | None => reset_regions self ini 0 (length l)
      end
  | _ => raise AttributeError
  end;;
  State_exit limit self.

(** The virtual call [self.exit()].  [limit] bounds the nesting of composite
    exits; the walk to the state machine shares it. *)
Fixpoint exit (limit : nat) (self : ref) : M unit :=
  o ← attr objs self;
  match o with
  | CompositeState k _ _ _ _ =>
      match limit with
      | 0 => raise RecursionError
      | S n =>
          match k with
          | Concurrent => ConcurrentCompositeState_exit (exit n) limit self
          | Plain | Machine => CompositeState_exit (exit n) limit self
          end
      end
  | _ => State_exit limit self
  end.

(** ** State.transition *)

(** [for action in actions: await action()] *)
Fixpoint run_actions (actions : list action) : M unit :=
  match actions with
  | [] => ret tt
  | a :: rest => log (Action a);; run_actions rest
  end.

Definition transition (limit : nat) (self new_state : ref) (actions : list action) : M ref :=
  exit limit self;;
  run_actions actions;;
  o ← attr objs new_state;
  (if negb (is_pseudo o) then entry new_state else ret tt);;
  (if negb (is_final o) then
     conc ← super_is_concurrent self;
     if conc : bool then activate_concurrent_state limit new_state
     else activate limit new_state
   else ret tt);;
  ret new_state.

(** ** class StateMachine *)

Definition trigger_tick (self : ref) : M unit :=
  _ ← attr _tick_event self;
  modify (with_tick <[self := true]>).

Definition clear_active_states (self : ref) : M unit :=
  _ ← attr active_states self;
  modify (with_active <[self := []]>).

(** ** class CompositeState *)

Definition CompositeState__transition_to (limit : nat) (self new_state : ref)
    (actions : list action) : M unit :=
  s ← attr _state self;
  r ← transition limit s new_state actions;
  modify (with_state <[self := r]>);;
  s' ← attr _state self;
  o ← attr objs s';
  if is_final o then
    m ← reads (λ w, state_machine limit self (objs w));
    trigger_tick m
  else ret tt.

(** [self._history], an attribute of composites only. *)
Definition the_history (self : ref) : M (option ref) :=
  o ← attr objs self;
  match o with
  | CompositeState _ _ _ _ hist => ret hist
  | _ => raise AttributeError
  end.

Definition the_final (self : ref) : M ref :=
  o ← attr objs self;
  match o with
  | CompositeState _ _ _ fin _ => ret fin
  | _ => raise AttributeError
  end.

Definition CompositeState__handle_history (limit : nat) (self : ref) : M unit :=
  hist ← the_history self;
  match hist with
  | None => raise (AssertionError history_is_None)
  | Some h =>
      target ← attr state_to_return_to h;
      match target with
      | None => raise (AssertionError no_state_to_return_to)
      | Some target_state =>
          CompositeState__transition_to limit self target_state [];;
          modify (with_return <[h := None]>)
      end
  end.

Definition CompositeState_is_at_final_state (self : ref) : M bool :=
  s ← attr _state self;
  fin ← the_final self;
  ret (bool_decide (s = fin)).

(** [CompositeState._transitions]; [call h] runs the registered callable [h]. *)
Definition CompositeState__transitions (call : handle → M unit) (self : ref) : M unit :=
  s ← attr _state self;
  table ← attr _transitions_per_state self;
  match table !! s with
  | Some transition_function => call transition_function
  | None => ret tt
  end.

Definition CompositeState_do (call : handle → M unit) (self : ref) : M unit :=
  log (Call do_actions self);;
  log (Puml (p_do self));;
  CompositeState__transitions call self.

(** ** class ConcurrentCompositeState *)

Definition ConcurrentCompositeState__transition_to (limit : nat) (self new_state : ref)
    (state_index : nat) (actions : list action) : M unit :=
  l ← attr _states self;
  match l !! state_index with
  | None => raise IndexError
  | Some s =>
      r ← transition limit s new_state actions;
      l ← attr _states self;
      modify (with_states <[self := <[state_index := r]> l]>)
  end.

Definition ConcurrentCompositeState__handle_history (limit : nat) (self : ref)
    (concurrent_state_index : nat) : M unit :=
  hist ← the_history self;
  match hist with
  | None => raise (AssertionError history_is_None)
  | Some h =>
      rs ← attr states_to_return_to h;
      match rs !! concurrent_state_index with
      | None => raise IndexError
      | Some None => raise (AssertionError no_state_to_return_to)
      | Some (Some target_state) =>
          ConcurrentCompositeState__transition_to limit self target_state
            concurrent_state_index [];;
          rs ← attr states_to_return_to h;
          modify (with_returns <[h := <[concurrent_state_index := None]> rs]>)
      end
  end.

(** [all(state == self._final for state in self._states)]; [self._final] is
    read only when there is a state to compare. *)
Definition ConcurrentCompositeState_is_at_final_state (self : ref) : M bool :=
  l ← attr _states self;
  match l with
  | [] => ret true
  | _ => fin ← the_final self; ret (forallb (λ s, bool_decide (s = fin)) l)
  end.

(** ** Construction *)

(** A new object: references are handed out in allocation order. *)
Definition alloc : M ref :=
  r ← gets next_ref;
  modify (with_next S);;
  ret r.

(** A client subclass of [State]: [State.__init__]. *)
Definition State__init__ (super_state : option ref) : M ref :=
  self ← alloc;
  modify (with_objs <[self := SimpleState super_state]>);;
  ret self.

Definition _InitialState__init__ (super_state : ref) : M ref :=
  self ← alloc;
  modify (with_objs <[self := PseudoState Initial super_state]>);;
  ret self.

Definition _FinalState__init__ (super_state : ref) : M ref :=
  self ← alloc;
  modify (with_objs <[self := PseudoState Final super_state]>);;
  ret self.

Definition _HistoryState__init__ (super_state : ref) : M ref :=
  self ← alloc;
  modify (with_objs <[self := PseudoState History super_state]>);;
  modify (with_return <[self := None]>);;
  ret self.

Definition _ConcurrentHistoryState__init__ (super_state : ref)
    (concurrent_state_count : Z) : M ref :=
  self ← alloc;
  modify (with_objs <[self := PseudoState ConcurrentHistory super_state]>);;
  modify (with_returns <[self := replicate (Z.to_nat concurrent_state_count) None]>);;
  ret self.

(** [BaseCompositeState.__init__]: the object itself, its [_initial] and
    [_final], and an empty transition table. *)
Definition BaseCompositeState__init__ : M (ref * ref * ref) :=
  self ← alloc;
  ini ← _InitialState__init__ self;
  fin ← _FinalState__init__ self;
  modify (with_transitions <[self := ∅]>);;
  ret (self, ini, fin).

(** [CompositeState.__init__]; [k] is [Plain] for a client composite and
    [Machine] when called from [StateMachine.__init__]. *)
Definition CompositeState__init__ (k : composite) (super_state : option ref)
    (has_history : bool) : M ref :=
  '(self, ini, fin) ← BaseCompositeState__init__;
  hist ← (if has_history then h ← _HistoryState__init__ self; ret (Some h)
          else ret None);
  modify (with_objs <[self := CompositeState k super_state ini fin hist]>);;
  modify (with_state <[self := ini]>);;
  ret self.

Definition ConcurrentCompositeState__init__ (concurrent_state_count : Z)
    (super_state : option ref) (has_history : bool) : M ref :=
  '(self, ini, fin) ← BaseCompositeState__init__;
  hist ← (if has_history
          then h ← _ConcurrentHistoryState__init__ self concurrent_state_count;
               ret (Some h)
          else ret None);
  modify (with_objs <[self := CompositeState Concurrent super_state ini fin hist]>);;
  modify (with_states <[self := replicate (Z.to_nat concurrent_state_count) ini]>);;
  ret self.

Definition StateMachine__init__ : M ref :=
  self ← CompositeState__init__ Machine None false;
  modify (with_tick <[self := false]>);;
  modify (with_active <[self := []]>);;
  ret self.

(** [self._transitions_per_state.update(transitions_per_state)] *)
Definition _set_transitions_per_state (self : ref) (transitions_per_state : gmap ref handle)
    : M unit :=
  table ← attr _transitions_per_state self;
  modify (with_transitions <[self := transitions_per_state ∪ table]>).

(** ** class Event, class EventWithValue *)

Definition Event__init__ (state_machine : ref) (name : string) : M ref :=
  self ← alloc;
  modify (with_events <[self := mkEvent state_machine name false None]>);;
  ret self.

Definition EventWithValue__init__ (state_machine : ref) (name : string) : M ref :=
  self ← Event__init__ state_machine name;
  e ← attr events self;
  modify (with_events
            <[self := mkEvent (ev_state_machine e) (ev_name e) (ev_event e) None]>);;
  ret self.

Definition set_flag (b : bool) (e : EventObj) : EventObj :=
  mkEvent (ev_state_machine e) (ev_name e) b (ev_value e).

Definition set_payload (v : option T) (e : EventObj) : EventObj :=
  mkEvent (ev_state_machine e) (ev_name e) (ev_event e) v.

Definition Event_clear (self : ref) : M unit :=
  e ← attr events self;
  modify (with_events <[self := set_flag false e]>).

(** [Event.__call__]: the poll. *)
Definition Event__call__ (self : ref) : M bool :=
  e ← attr events self;
  if ev_event e then Event_clear self;; ret true
  else ret false.

Definition Event_set (self : ref) : M unit :=
  e ← attr events self;
  modify (with_events <[self := set_flag true e]>);;
  log (Puml (p_rnote (ev_name e)));;
  trigger_tick (ev_state_machine e).

(** The [value] property. *)
Definition EventWithValue_value (self : ref) : M T :=
  e ← attr events self;
  match ev_value e with
  | Some v => ret v
  | None => raise (AssertionError value_is_None)
  end.

(** [set_value(value)]; the argument may be [None]. *)
Definition EventWithValue_set_value (self : ref) (value : option T) : M unit :=
  assert (bool_decide (is_Some value)) value_passed_is_None;;
  e ← attr events self;
  modify (with_events <[self := set_payload value e]>);;
  Event_set self.

End Yasmi.

Arguments World : clear implicits.
Arguments EventObj : clear implicits.
Arguments M : clear implicits.

(** ** Drivers: a caller that repeats a call, or that survives a failing one *)

Section Drivers.
Context {T : Type}.

(** [n] successive calls, results in order. *)
Fixpoint times {A} (n : nat) (c : M T A) : M T (list A) :=
  match n with
  | 0 => ret []
  | S n' => a ← c; rest ← times n' c; ret (a :: rest)
  end.

(** A call of the public interface of an [EventWithValue]. *)
Inductive EventCall :=
| c_set
| c_poll
| c_clear
| c_set_value (value : option T).

Definition perform (self : ref) (c : EventCall) : M T unit :=
  match c with
  | c_set => Event_set self
  | c_poll => _ ← Event__call__ self; ret tt
  | c_clear => Event_clear self
  | c_set_value v => EventWithValue_set_value self v
  end.

(** [try: c  except Exception: pass] *)
Definition attempt {A} (c : M T A) : M T unit :=
  fun w => (Ok tt, snd (c w)).

Fixpoint perform_all (self : ref) (cs : list EventCall) : M T unit :=
  match cs with
  | [] => ret tt
  | c :: rest => attempt (perform self c);; perform_all self rest
  end.

(** The payload of the last [set_value] with a payload, [v0] when there is
    none. *)
Fixpoint last_stored (v0 : option T) (cs : list EventCall) : option T :=
  match cs with
  | [] => v0
  | c_set_value (Some v) :: rest => last_stored (Some v) rest
  | _ :: rest => last_stored v0 rest
  end.

End Drivers.

Arguments EventCall : clear implicits.

(** What a series of [n] polls answers when the event was set before it. *)
Definition one_true (n : nat) : list bool :=
  match n with
  | 0 => []
  | S n' => true :: replicate n' false
  end.


(** Whether [self] is where [State.exit] expects it: alone on the top of the
    stack, or, for a member of a concurrent region, in the set on the top. *)
Definition positioned (concurrent_member : bool) (self : ref) (stk : list Frame) : bool :=
  match last stk with
  | Some (Single s) => negb concurrent_member && bool_decide (self = s)
  | Some (Region ss) => concurrent_member && bool_decide (self ∈ ss)
  | None => false
  end.

(** The stack once [self] has left it: popped, or taken out of the set on
    the top, which goes when it has become empty. *)
Definition stack_without (self : ref) (stk : list Frame) : list Frame :=
  match last stk with
  | Some (Region ss) =>
      if decide (ss ∖ {[self]} = ∅) then removelast stk
      else removelast stk ++ [Region (ss ∖ {[self]})]
  | _ => removelast stk
  end.

(** The stack once [s] is activated: pushed, or, for the target of a
    transition inside a concurrent composite, put into the set on the top
    (a fresh one if the top is not a set). *)
Definition activated (concurrent_member : bool) (s : ref) (stk : list Frame) : list Frame :=
  if concurrent_member then
    match last stk with
    | Some (Region ss) => removelast stk ++ [Region ({[s]} ∪ ss)]
    | _ => stk ++ [Region {[s]}]
    end
  else stk ++ [Single s].

(** Whether the parent of an object is a concurrent composite. *)
Definition concurrent_member (os : gmap ref Obj) (o : Obj) : bool :=
  match _super_state o with
  | Some p => match os !! p with
              | Some po => is_concurrent po
              | None => false
              end
  | None => false
  end.

(** What [entry] leaves in the trace. *)
Definition entry_trace (s : ref) : list TraceEv :=
  [Puml (p_activate s); Puml (p_entry s); Call entry_actions s].

(** What [State.exit] leaves in the trace before it looks at the stack, and
    once the state is off the stack. *)
Definition exit_trace (s : ref) : list TraceEv :=
  [Puml (p_exit s); Call exit_actions s].

Definition is_exit_event (e : TraceEv) : bool :=
  match e with
  | Puml (p_exit _) | Puml (p_deactivate _) | Call exit_actions _ => true
  | _ => false
  end.

(** References follow the order of construction: what a composite points to
    (its pseudo-states, its current children) was built after it. *)
Definition obj_ordered (c : ref) (o : Obj) : Prop :=
  match o with
  | CompositeState _ _ ini fin hist =>
      c < ini ∧ c < fin ∧ from_option (λ h, c < h) True hist
  | _ => True
  end.

#[global] Instance obj_ordered_dec c o : Decision (obj_ordered c o).
Proof. destruct o as [| |? ? ? ? []]; cbn; apply _. Defined.

Definition well_ordered {T} (w : World T) : Prop :=
  map_Forall obj_ordered (objs w) ∧
  map_Forall (λ c s, c < s) (_state w) ∧
  map_Forall (λ c l, Forall (λ s, c < s) l) (_states w).

#[global] Instance well_ordered_dec {T} (w : World T) : Decision (well_ordered w).
Proof. unfold well_ordered. apply _. Defined.

(** The failure of [State.exit] for a state that is not in its place. *)
Definition misplaced (concurrent_member : bool) (stk : list Frame) : exn :=
  match last stk with
  | None => IndexError
  | Some (Single _) =>
      if concurrent_member then AssertionError top_should_be_a_set
      else AssertionError not_at_top_of_stack
  | Some (Region _) => AssertionError not_at_top_of_stack
  end.

(** What [State.exit], [entry] and the activations may change: the stack
    and the trace, nothing else. *)
Definition only_stack_and_trace {T} (w w' : World T) : Prop :=
  objs w' = objs w ∧ _state w' = _state w ∧ _states w' = _states w ∧
  state_to_return_to w' = state_to_return_to w ∧
  states_to_return_to w' = states_to_return_to w ∧
  _transitions_per_state w' = _transitions_per_state w ∧
  _tick_event w' = _tick_event w ∧ events w' = events w ∧
  next_ref w' = next_ref w.

(** What an exit, cascading through composites, may change: not the objects,
    the tick event, the tables or the events; and it adds nothing to the trace
    but records of exits. *)
Definition exit_frame {T} (w w' : World T) : Prop :=
  objs w' = objs w ∧ _tick_event w' = _tick_event w ∧
  _transitions_per_state w' = _transitions_per_state w ∧
  events w' = events w ∧ next_ref w' = next_ref w ∧
  ∃ X, trace w' = trace w ++ X ∧ Forall (λ e, is_exit_event e = true) X.

(** What a transition may change: not the objects, the tick event, the
    tables or the events. *)
Definition transition_frame {T} (w w' : World T) : Prop :=
  objs w' = objs w ∧ _tick_event w' = _tick_event w ∧
  _transitions_per_state w' = _transitions_per_state w ∧ events w' = events w.

(** What the exit of [s] may change in a well-ordered store: it stays
    well-ordered, and the current children of the composites built before
    [s] stay as they are. *)
Definition below_frame {T} (s : ref) (w w' : World T) : Prop :=
  well_ordered w →
  well_ordered w' ∧ objs w' = objs w ∧
  ∀ c, c < s → _state w' !! c = _state w !! c.

(** A computation keeps every change of the store within [R]; and the same
    for the runs from one store. *)
Definition preserves {T A} (R : relation (World T)) (c : M T A) : Prop :=
  ∀ w r w', c w = (r, w') → R w w'.

Definition preserves_at {T A} (R : relation (World T)) (c : M T A) (w : World T) : Prop :=
  ∀ r w', c w = (r, w') → R w w'.

(** ** An example machine

    A machine [0] with a composite [3] that keeps a history and has the
    children [7] and [8], a concurrent composite [9] of two regions with the
    children [13] and [14], and an event [15]:
<<
      0 machine   1 initial  2 final
      3 composite 4 initial  5 final   6 history   7, 8 states
      9 concurrent 10 initial 11 final 12 history  13, 14 states
      15 event
>> *)

Definition example_build : M nat unit :=
  m ← StateMachine__init__;
  c ← CompositeState__init__ Plain (Some m) true;
  _ ← State__init__ (Some c);
  _ ← State__init__ (Some c);
  k ← ConcurrentCompositeState__init__ 2 (Some m) true;
  _ ← State__init__ (Some k);
  _ ← State__init__ (Some k);
  _ ← EventWithValue__init__ m "event";
  activate 8 m.

(** Built and started. *)
Definition example_started : World nat := snd (example_build empty_world).

(** The machine entered [3], and [3] entered [7]: stack [[0; 3; 7]]. *)
Definition example_in_7 : World nat :=
  snd ((CompositeState__transition_to 8 0 3 [];;
        CompositeState__transition_to 8 3 7 [1]) example_started).

(** The machine entered [9], region 0 is in [13] and region 1 in [14]. *)
Definition example_in_regions : World nat :=
  snd ((CompositeState__transition_to 8 0 9 [];;
        ConcurrentCompositeState__transition_to 8 9 13 0 [];;
        ConcurrentCompositeState__transition_to 8 9 14 1 []) example_started).

(** The machine entered [3] and left it for [9] before [3] made its initial
    transition; the history of [3] remembers the initial pseudo-state [4]. *)
Definition example_left_early : World nat :=
  snd ((CompositeState__transition_to 8 0 3 [];;
        CompositeState__transition_to 8 0 9 [];;
        CompositeState__transition_to 8 0 3 []) example_started).

(** The machine entered [3], [3] entered [7], the machine left [3] for [9]
    and came back: [3] is on the stack again, its current child is its
    history [6], which remembers [7]. *)
Definition example_reentered : World nat :=
  snd ((CompositeState__transition_to 8 0 9 [];;
        CompositeState__transition_to 8 0 3 []) example_in_7).

(** A machine with one composite, and no transition registered anywhere. *)
Definition bare_build : M nat ref :=
  m ← StateMachine__init__;
  CompositeState__init__ Plain (Some m) false.

(** ** More of the store *)


(** What [remember_or_reset] makes of a composite whose current child is
    [s]. *)
Definition remembered {T} (self s ini fin : ref) (hist : option ref) (w : World T)
    : World T :=
  match hist with
  | Some h =>
      if bool_decide (s ≠ fin)
      then with_state <[self := h]> (with_return <[h := Some s]> w)
      else with_state <[self := ini]> w
  | None => with_state <[self := ini]> w
  end.



(** What the exit of [s] may change in a well-ordered store, for the
    concurrent composites: the store stays well-ordered, the region vectors
    of the composites built before [s] stay as they are, and no vector of
    return states changes its length. *)
Definition regions_frame {T} (s : ref) (w w' : World T) : Prop :=
  well_ordered w →
  well_ordered w' ∧ objs w' = objs w ∧
  (∀ c, c < s → _states w' !! c = _states w !! c) ∧
  (∀ h, length <$> states_to_return_to w' !! h
        = length <$> states_to_return_to w !! h).

(** [__call__] and [clear] are plain functions, which nothing interrupts;
    [set] and [set_value] are coroutines, which hand over to the event loop
    before they return. *)
Definition is_synchronous {T} (c : EventCall T) : bool :=
  match c with
  | c_poll | c_clear => true
  | c_set | c_set_value _ => false
  end.

(** ** Names

    [State.name] is the name of the class of the state; the store does not
    hold it, so the functions that print a state take it as [name]. *)

(** [State.__str__]: the name without a leading underscore. *)
Definition State__str__ (name : string) : Res string :=
  match name with
  | EmptyString => Raise IndexError
  | String c rest =>
      Ok (if String.eqb (String c EmptyString) "_" then rest else name)
  end.

Definition suffix (k : pseudo) : string :=
  match k with
  | Initial => "_initial"
  | Final => "_final"
  | History | ConcurrentHistory => "_history"
  end%string.

(** [str(self)]: a pseudo-state prints its composite and a suffix. *)
Fixpoint __str__ (name : ref → string) (limit : nat) (self : ref)
    (os : gmap ref Obj) : Res string :=
  match os !! self with
  | None => Raise AttributeError
  | Some (PseudoState k sup) =>
      match limit with
      | 0 => Raise RecursionError
      | S n =>
          match __str__ name n sup os with
          | Ok s => Ok (String.append s (suffix k))
          | Raise e => Raise e
          end
      end
  | Some _ => State__str__ (name self)
  end.

(** A comprehension [[f(a) for a in l]]: the first failure ends it. *)
Fixpoint all_of {A B} (f : A → Res B) (l : list A) : Res (list B) :=
  match l with
  | [] => Ok []
  | a :: rest =>
      match f a with
      | Ok b => match all_of f rest with
                | Ok bs => Ok (b :: bs)
                | Raise e => Raise e
                end
      | Raise e => Raise e
      end
  end.

(** The order of [sorted] on strings. *)
Definition str_le (a b : string) : Prop := String.leb a b = true.

#[global] Instance str_le_dec : RelDecision str_le :=
  λ a b, decide (String.leb a b = true).

(** One item of [active_state_types]. *)
Definition item_types (name : ref → string) (limit : nat) (os : gmap ref Obj)
    (item : Frame) : Res (string + list string) :=
  match item with
  | Single s =>
      match __str__ name limit s os with
      | Ok n => Ok (inl n)
      | Raise e => Raise e
      end
  | Region ss =>
      match all_of (λ s, __str__ name limit s os) (elements ss) with
      | Ok ns => Ok (inr (merge_sort str_le ns))
      | Raise e => Raise e
      end
  end.

(** The [active_state_types] property of a [StateMachine]. *)
Definition active_state_types {T} (name : ref → string) (limit : nat) (self : ref)
    : M T (list (string + list string)) :=
  stk ← attr active_states self;
  reads (λ w, match all_of (item_types name limit (objs w)) stk with
              | Ok l => Ok (tail l)
              | Raise e => Raise e
              end).

(** The states of a stack. *)
Definition on_stack (s : ref) (stk : list Frame) : Prop :=
  ∃ item, item ∈ stk ∧
          match item with Single s' => s = s' | Region ss => s ∈ ss end.

(** * Properties *)

Section Properties.
Context {T : Type}.
Implicit Types (w : World T) (self : ref).

Ltac munfold :=
  unfold mbind, M_bind, mret, M_ret, bind, ret, raise, gets, modify, reads,
    attr, assert, log.

(** *** Running a computation *)

Lemma bind_run {A B} (c : M T A) (k : A → M T B) w :
  (c ≫= k) w = match c w with
               | (Ok a, w') => k a w'
               | (Raise e, w') => (Raise e, w')
               end.
Proof. reflexivity. Qed.

Lemma bind_inv {A B} (c : M T A) (k : A → M T B) w r w' :
  (c ≫= k) w = (r, w') →
  (∃ a w1, c w = (Ok a, w1) ∧ k a w1 = (r, w')) ∨
  (∃ e, c w = (Raise e, w') ∧ r = Raise e).
Proof.
  rewrite bind_run. destruct (c w) as [[a|e] w1]; intros H.
  - left. eauto.
  - right. injection H as <- <-. eauto.
Qed.

Lemma bind_inv_ok {A B} (c : M T A) (k : A → M T B) w b w' :
  (c ≫= k) w = (Ok b, w') →
  ∃ a w1, c w = (Ok a, w1) ∧ k a w1 = (Ok b, w').
Proof.
  intros H. apply bind_inv in H as [H|(e & _ & ?)]; [exact H|discriminate].
Qed.

Lemma run_ok {A B} (c : M T A) (k : A → M T B) w a w' :
  c w = (Ok a, w') → (c ≫= k) w = k a w'.
Proof. intros H. by rewrite bind_run, H. Qed.

Lemma run_raise {A B} (c : M T A) (k : A → M T B) w e w' :
  c w = (Raise e, w') → (c ≫= k) w = (Raise e, w').
Proof. intros H. by rewrite bind_run, H. Qed.

Lemma run_log {B} e (k : unit → M T B) w :
  (log e ≫= k) w = k tt (with_trace (λ t, t ++ [e]) w).
Proof. reflexivity. Qed.

Lemma run_modify {B} f (k : unit → M T B) w : (modify f ≫= k) w = k tt (f w).
Proof. reflexivity. Qed.

Lemma run_ret {A B} (a : A) (k : A → M T B) w : (mret a ≫= k) w = k a w.
Proof. reflexivity. Qed.

Lemma run_ret' {A B} (a : A) (k : A → M T B) w : (ret a ≫= k) w = k a w.
Proof. reflexivity. Qed.

Lemma run_assert {B} a (k : unit → M T B) w : (assert true a ≫= k) w = k tt w.
Proof. reflexivity. Qed.

Lemma run_attr {A B} (f : World T → gmap ref A) r (k : A → M T B) w a :
  f w !! r = Some a → (attr f r ≫= k) w = k a w.
Proof. intros H. unfold attr. by rewrite bind_run, H. Qed.

Ltac mrun :=
  repeat first [rewrite run_log | rewrite run_modify | rewrite run_ret
               | rewrite run_ret'
               | rewrite run_assert]; cbn beta iota.

Lemma attr_run {A} (f : World T → gmap ref A) r w a :
  f w !! r = Some a → attr f r w = (Ok a, w).
Proof. intros H. unfold attr. by rewrite H. Qed.

Lemma attr_inv {A} (f : World T → gmap ref A) r w a w' :
  attr f r w = (Ok a, w') → f w !! r = Some a ∧ w' = w.
Proof. unfold attr. destruct (f w !! r); intros H; by simplify_eq. Qed.

(** *** What a computation leaves alone *)

Section preserves.
Context (R : relation (World T)) `{!PreOrder R}.

Lemma preserves_ret {A} (a : A) : preserves R (mret a).
Proof. intros w r w' H. injection H as _ <-. reflexivity. Qed.

Lemma preserves_raise {A} e : preserves R (raise e : M T A).
Proof. intros w r w' H. injection H as _ <-. reflexivity. Qed.

Lemma preserves_attr {A} (f : World T → gmap ref A) r : preserves R (attr f r).
Proof.
  intros w r' w' H. unfold attr in H.
  destruct (f w !! r); injection H as _ <-; reflexivity.
Qed.

Lemma preserves_reads {A} (f : World T → Res A) : preserves R (reads f).
Proof. intros w r w' H. injection H as _ <-. reflexivity. Qed.

Lemma preserves_gets {A} (f : World T → A) : preserves R (gets f).
Proof. intros w r w' H. injection H as _ <-. reflexivity. Qed.

Lemma preserves_assert b a : preserves R (assert b a).
Proof. destruct b; [apply preserves_ret|apply preserves_raise]. Qed.

Lemma preserves_modify f : (∀ w, R w (f w)) → preserves R (modify f).
Proof. intros Hf w r w' H. injection H as _ <-. apply Hf. Qed.

Lemma preserves_bind {A B} (c : M T A) (k : A → M T B) :
  preserves R c → (∀ a, preserves R (k a)) → preserves R (c ≫= k).
Proof.
  intros Hc Hk w r w' H.
  apply bind_inv in H as [(a & w1 & H1 & H2)|(e & H1 & _)].
  - etransitivity; [eapply Hc|eapply Hk]; eauto.
  - eapply Hc; eauto.
Qed.
End preserves.

Lemma preserves_weaken {A} (R R' : relation (World T)) (c : M T A) :
(∀ w w', R w w' → R' w w') → preserves R c → preserves R' c.
Proof. intros HR Hc w r w' H. eapply HR, Hc, H. Qed.

Ltac preserves_tac :=
lazymatch goal with
| |- preserves _ (mbind _ _) =>
    apply preserves_bind; [try apply _|preserves_tac|intros ?; preserves_tac]
| |- preserves _ (mret _) => apply preserves_ret; apply _
| |- preserves _ (ret _) => apply preserves_ret; apply _
| |- preserves _ (raise _) => apply preserves_raise; apply _
| |- preserves _ (attr _ _) => apply preserves_attr; apply _
| |- preserves _ (reads _) => apply preserves_reads; apply _
| |- preserves _ (gets _) => apply preserves_gets; apply _
| |- preserves _ (assert _ _) => apply preserves_assert; apply _
| |- preserves _ (modify _) => apply preserves_modify; intros ?; try (solve [eauto])
| |- preserves _ (log _) => apply preserves_modify; intros ?; try (solve [eauto])
| |- preserves _ (match ?x with _ => _ end) => destruct x; preserves_tac
| |- preserves _ (if ?x then _ else _) => destruct x; preserves_tac
| _ => try (solve [eauto])
end.

Section frames.
Context (R : relation (World T)) `{!PreOrder R}.
Hypothesis R_active : ∀ f w, R w (with_active f w).
Hypothesis R_exit_event :
  ∀ e w, is_exit_event e = true → R w (with_trace (λ t, t ++ [e]) w).

Lemma the_active_states_preserves limit self :
  preserves R (the_active_states limit self).
Proof. unfold the_active_states. preserves_tac. Qed.

Lemma top_of_stack_preserves limit self : preserves R (top_of_stack limit self).
Proof.
  pose proof the_active_states_preserves.
  unfold top_of_stack. preserves_tac.
Qed.

Lemma deactivate_preserves limit self : preserves R (deactivate limit self).
Proof.
  pose proof the_active_states_preserves.
  unfold deactivate. preserves_tac.
Qed.

Lemma deactivate_concurrent_state_preserves limit self :
  preserves R (deactivate_concurrent_state limit self).
Proof.
  pose proof the_active_states_preserves.
  unfold deactivate_concurrent_state. preserves_tac.
Qed.

Lemma super_is_concurrent_preserves self : preserves R (super_is_concurrent self).
Proof. unfold super_is_concurrent. preserves_tac. Qed.

Lemma State_exit_preserves limit self : preserves R (State_exit limit self).
Proof.
  pose proof top_of_stack_preserves. pose proof deactivate_preserves.
  pose proof deactivate_concurrent_state_preserves.
  pose proof super_is_concurrent_preserves.
  unfold State_exit. preserves_tac.
Qed.

Hypothesis R_state : ∀ f w, R w (with_state f w).
Hypothesis R_states : ∀ f w, R w (with_states f w).
Hypothesis R_return : ∀ f w, R w (with_return f w).
Hypothesis R_returns : ∀ f w, R w (with_returns f w).

Lemma remember_or_reset_preserves self : preserves R (remember_or_reset self).
Proof. unfold remember_or_reset. preserves_tac. Qed.

Lemma exit_regions_preserves (exit : ref → M T unit) self i n :
  (∀ s, preserves R (exit s)) → preserves R (exit_regions exit self i n).
Proof.
  intros Hexit. revert i. induction n as [|n IH]; intros i; cbn [exit_regions];
    preserves_tac.
Qed.

Lemma remember_regions_preserves self h i n :
  preserves R (remember_regions self h i n).
Proof.
  revert i. induction n as [|n IH]; intros i; cbn [remember_regions];
    preserves_tac.
Qed.

Lemma reset_regions_preserves self ini i n :
  preserves R (reset_regions self ini i n).
Proof.
  revert i. induction n as [|n IH]; intros i; cbn [reset_regions];
    preserves_tac.
Qed.

Lemma exit_preserves limit self : preserves R (exit limit self).
Proof.
  pose proof State_exit_preserves. pose proof remember_or_reset_preserves.
  pose proof remember_regions_preserves. pose proof reset_regions_preserves.
  revert self. induction limit as [|n IH]; intros self; cbn [exit].
  - preserves_tac.
  - pose proof (λ self i k, exit_regions_preserves (exit n) self i k IH).
    unfold CompositeState_exit, ConcurrentCompositeState_exit. preserves_tac.
Qed.

Hypothesis R_trace : ∀ f w, R w (with_trace f w).

Lemma activate_preserves limit self : preserves R (activate limit self).
Proof.
  pose proof the_active_states_preserves.
  unfold activate. preserves_tac.
Qed.

Lemma activate_concurrent_state_preserves limit self :
  preserves R (activate_concurrent_state limit self).
Proof.
  pose proof the_active_states_preserves. pose proof top_of_stack_preserves.
  unfold activate_concurrent_state. preserves_tac.
Qed.

Lemma run_actions_preserves actions : preserves R (run_actions actions).
Proof. induction actions; cbn [run_actions]; preserves_tac. Qed.

Lemma transition_preserves limit self new_state actions :
  preserves R (transition limit self new_state actions).
Proof.
  pose proof exit_preserves. pose proof run_actions_preserves.
  pose proof activate_preserves. pose proof activate_concurrent_state_preserves.
  pose proof super_is_concurrent_preserves.
  unfold transition, entry. preserves_tac.
Qed.
End frames.

(** *** The stack operations, run *)

Lemma with_trace_app (l1 l2 : list TraceEv) w :
  with_trace (λ t, t ++ l2) (with_trace (λ t, t ++ l1) w)
  = with_trace (λ t, t ++ (l1 ++ l2)) w.
Proof. unfold with_trace. cbn. by rewrite <- app_assoc. Qed.

Lemma the_active_states_run limit w self m stk :
  state_machine limit self (objs w) = Ok m →
  active_states w !! m = Some stk →
  the_active_states limit self w = (Ok (m, stk), w).
Proof.
  intros Hm Hs. unfold the_active_states. munfold. by rewrite Hm, Hs.
Qed.

Lemma top_of_stack_run limit w self m stk :
  state_machine limit self (objs w) = Ok m →
  active_states w !! m = Some stk →
  top_of_stack limit self w
  = (match last stk with Some f => Ok f | None => Raise IndexError end, w).
Proof.
  intros Hm Hs. unfold top_of_stack.
  rewrite bind_run, (the_active_states_run _ _ _ _ _ Hm Hs).
  by destruct (last stk).
Qed.

Lemma activate_run limit w self m stk :
  state_machine limit self (objs w) = Ok m →
  active_states w !! m = Some stk →
  activate limit self w = (Ok tt, with_active <[m := stk ++ [Single self]]> w).
Proof.
  intros Hm Hs. unfold activate.
  by rewrite bind_run, (the_active_states_run _ _ _ _ _ Hm Hs).
Qed.

Lemma deactivate_run limit w self m stk f :
  state_machine limit self (objs w) = Ok m →
  active_states w !! m = Some stk →
  last stk = Some f →
  deactivate limit self w = (Ok tt, with_active <[m := removelast stk]> w).
Proof.
  intros Hm Hs Hl. unfold deactivate.
  by rewrite bind_run, (the_active_states_run _ _ _ _ _ Hm Hs), Hl.
Qed.

Lemma deactivate_concurrent_state_run limit w self m stk ss :
  state_machine limit self (objs w) = Ok m →
  active_states w !! m = Some stk →
  last stk = Some (Region ss) →
  self ∈ ss →
  deactivate_concurrent_state limit self w
  = (Ok tt, with_active <[m := stack_without self stk]> w).
Proof.
  intros Hm Hs Hl Hin. unfold deactivate_concurrent_state, stack_without.
  rewrite bind_run, (the_active_states_run _ _ _ _ _ Hm Hs), Hl.
  rewrite decide_True by done. rewrite bind_run. unfold modify at 1.
  erewrite bind_run, the_active_states_run; [|exact Hm|apply lookup_insert_eq].
  rewrite last_snoc. destruct (decide (ss ∖ {[self]} = ∅)) as [He|He].
  - unfold modify, with_active. cbn.
    by rewrite removelast_last, insert_insert_eq.
  - reflexivity.
Qed.

Lemma super_is_concurrent_run w self o :
  objs w !! self = Some o →
  (∀ p, _super_state o = Some p → is_Some (objs w !! p)) →
  super_is_concurrent self w = (Ok (concurrent_member (objs w) o), w).
Proof.
  intros Ho Hp. unfold super_is_concurrent, concurrent_member. munfold.
  rewrite Ho. destruct (_super_state o) as [p|]; [|done].
  by destruct (Hp p eq_refl) as [po ->].
Qed.

Lemma State_exit_run limit w self o m stk :
  objs w !! self = Some o →
  is_pseudo o = false →
  is_Some (_super_state o) →
  (∀ p, _super_state o = Some p → is_Some (objs w !! p)) →
  state_machine limit self (objs w) = Ok m →
  active_states w !! m = Some stk →
  State_exit limit self w =
    let w1 := with_trace (λ t, t ++ exit_trace self) w in
    if positioned (concurrent_member (objs w) o) self stk
    then (Ok tt, with_trace (λ t, t ++ [Puml (p_deactivate self)])
                   (with_active <[m := stack_without self stk]> w1))
    else (Raise (misplaced (concurrent_member (objs w) o) stk), w1).
Proof.
  intros Ho Hps Hsup Hp Hm Hs. unfold State_exit.
  rewrite (run_attr _ _ _ _ _ Ho), Hps. cbn [negb]. mrun.
  rewrite with_trace_app. cbn [app]. fold (exit_trace self).
  set (w1 := with_trace _ w).
  rewrite bool_decide_eq_true_2 by done. mrun.
  erewrite run_ok; [|by apply (super_is_concurrent_run w1 self o)].
  change (objs w1) with (objs w).
  assert (Hm1 : state_machine limit self (objs w1) = Ok m) by done.
  assert (Hs1 : active_states w1 !! m = Some stk) by done.
  unfold positioned, misplaced.
  pose proof (top_of_stack_run _ _ _ _ _ Hm1 Hs1) as Htop.
  rewrite bind_run.
  destruct (concurrent_member (objs w) o); cbn [negb andb].
  - destruct (last stk) as [[s|ss]|] eqn:Hl.
    + by rewrite (run_ok _ _ _ _ _ Htop).
    + rewrite (run_ok _ _ _ _ _ Htop). mrun. rewrite (run_ok _ _ _ _ _ Htop).
      destruct (bool_decide (self ∈ ss)) eqn:Hin; [|done].
      apply bool_decide_eq_true_1 in Hin. mrun.
      by rewrite (deactivate_concurrent_state_run _ _ _ _ _ _ Hm1 Hs1 Hl Hin).
    + by rewrite (run_raise _ _ _ _ _ Htop).
  - destruct (last stk) as [[s|ss]|] eqn:Hl.
    + rewrite (run_ok _ _ _ _ _ Htop).
      destruct (bool_decide (self = s)) eqn:Heq; [|done]. mrun.
      rewrite (deactivate_run _ _ _ _ _ _ Hm1 Hs1 Hl).
      unfold stack_without. by rewrite Hl.
    + by rewrite (run_ok _ _ _ _ _ Htop).
    + by rewrite (run_raise _ _ _ _ _ Htop).
Qed.

(** *** Exit *)

#[local] Instance only_stack_and_trace_preorder : PreOrder (@only_stack_and_trace T).
Proof.
  split.
  - intros w. by repeat split.
  - intros w1 w2 w3 H12 H23. unfold only_stack_and_trace in *.
    destruct_and!. repeat split; congruence.
Qed.

#[local] Instance exit_frame_preorder : PreOrder (@exit_frame T).
Proof.
  split.
  - intros w. repeat split. exists []. by rewrite app_nil_r.
  - intros w1 w2 w3 (?&?&?&?&?&X&HX&HXe) (?&?&?&?&?&Y&HY&HYe).
    repeat split; try congruence. exists (X ++ Y).
    rewrite HY, HX, app_assoc. split; [done|]. by apply Forall_app.
Qed.

Lemma State_exit_only_stack_and_trace limit self :
  preserves (T:=T) only_stack_and_trace (State_exit limit self).
Proof. apply State_exit_preserves; [apply _|by intros|by intros]. Qed.

Lemma exit_exit_frame limit self : preserves (T:=T) exit_frame (exit limit self).
Proof.
  apply exit_preserves; try apply _; try (intros; repeat split; exists []; by rewrite app_nil_r).
  intros e w He. repeat split. exists [e]. split; [done|]. by constructor.
Qed.

Lemma exit_pseudo limit w self k sup :
  objs w !! self = Some (PseudoState k sup) → exit limit self w = (Ok tt, w).
Proof.
  intros Ho. destruct limit; cbn [exit]; rewrite (run_attr _ _ _ _ _ Ho);
    unfold State_exit; by rewrite (run_attr _ _ _ _ _ Ho).
Qed.

Lemma exit_simple limit w self sup :
  objs w !! self = Some (SimpleState sup) →
  exit limit self w = State_exit limit self w.
Proof. intros Ho. destruct limit; cbn [exit]; by rewrite (run_attr _ _ _ _ _ Ho). Qed.









(** *** Transitions *)

Lemma run_actions_run actions w :
  run_actions actions w = (Ok tt, with_trace (λ t, t ++ map Action actions) w).
Proof.
  revert w. induction actions as [|a actions IH]; intros w; cbn [run_actions map].
  - unfold with_trace. cbn. by rewrite app_nil_r; destruct w.
  - rewrite run_log, IH, with_trace_app. reflexivity.
Qed.

Lemma entry_run self w :
  entry self w = (Ok tt, with_trace (λ t, t ++ entry_trace self) w).
Proof. unfold entry. mrun. unfold log, modify. by rewrite !with_trace_app. Qed.

Lemma activate_concurrent_state_run limit w self m stk :
  state_machine limit self (objs w) = Ok m →
  active_states w !! m = Some stk →
  stk ≠ [] →
  activate_concurrent_state limit self w
  = (Ok tt, with_active <[m := activated true self stk]> w).
Proof.
  intros Hm Hs Hne. unfold activate_concurrent_state, activated.
  pose proof (top_of_stack_run _ _ _ _ _ Hm Hs) as Htop.
  destruct (last stk) as [[s|ss]|] eqn:Hl.
  - rewrite (run_ok _ _ _ _ _ Htop). cbn beta iota. rewrite bind_run.
    rewrite (run_ok _ _ _ _ _ (the_active_states_run _ _ _ _ _ Hm Hs)).
    cbn beta iota. unfold modify at 1.
    erewrite run_ok; [|apply the_active_states_run; [exact Hm|apply lookup_insert_eq]].
    cbn beta iota.
    rewrite last_snoc, removelast_last. unfold modify, with_active. cbn.
    by rewrite insert_insert_eq, union_empty_r_L.
  - rewrite (run_ok _ _ _ _ _ Htop). mrun.
    rewrite (run_ok _ _ _ _ _ (the_active_states_run _ _ _ _ _ Hm Hs)).
    cbn beta iota. by rewrite Hl.
  - by apply last_None in Hl.
Qed.

Lemma transition_run limit w self new_state actions o o_new m w1 stk :
  objs w !! self = Some o →
  (∀ p, _super_state o = Some p → is_Some (objs w !! p)) →
  objs w !! new_state = Some o_new →
  state_machine limit new_state (objs w) = Ok m →
  exit limit self w = (Ok tt, w1) →
  active_states w1 !! m = Some stk →
  (concurrent_member (objs w) o = true → stk ≠ []) →
  transition limit self new_state actions w
  = (Ok new_state,
     (if is_final o_new then id
      else with_active
             <[m := activated (concurrent_member (objs w) o) new_state stk]>)
       (with_trace
          (λ t, t ++ (map Action actions
                      ++ if is_pseudo o_new then [] else entry_trace new_state))
          w1)).
Proof.
  intros Ho Hp Hnew Hm Hexit Hs Hne.
  destruct (exit_exit_frame _ _ _ _ _ Hexit) as (Hobjs & _).
  unfold transition. rewrite (run_ok _ _ _ _ _ Hexit).
  rewrite (run_ok _ _ _ _ _ (run_actions_run _ _)).
  set (w2 := with_trace _ w1).
  assert (Hobjs2 : objs w2 = objs w) by done.
  erewrite run_attr; [|by rewrite Hobjs2].
  set (w3 := with_trace (λ t, t ++ if is_pseudo o_new then [] else entry_trace new_state) w2).
  assert (Hentry : (if negb (is_pseudo o_new) then entry new_state else mret ()) w2
                   = (Ok tt, w3)).
  { subst w3. destruct (is_pseudo o_new); cbn [negb].
    - unfold with_trace. cbn. rewrite app_nil_r. by destruct w1.
    - apply entry_run. }
  rewrite (run_ok _ _ _ _ _ Hentry).
  assert (Hw3 : w3 = with_trace
           (λ t, t ++ (map Action actions
                       ++ if is_pseudo o_new then [] else entry_trace new_state)) w1).
  { subst w3 w2. apply with_trace_app. }
  rewrite <- Hw3. rewrite bind_run.
  destruct (is_final o_new); cbn [negb]; [done|].
  assert (Hobjs3 : objs w3 = objs w) by done.
  erewrite run_ok;
    [|apply (super_is_concurrent_run w3 self o); by rewrite Hobjs3].
  rewrite Hobjs3.
  assert (Hm3 : state_machine limit new_state (objs w3) = Ok m)
    by (by rewrite Hobjs3).
  assert (Hs3 : active_states w3 !! m = Some stk) by done.
  destruct (concurrent_member (objs w) o) eqn:Hc.
  + by rewrite (activate_concurrent_state_run _ _ _ _ _ Hm3 Hs3 (Hne eq_refl)).
  + by rewrite (activate_run _ _ _ _ _ Hm3 Hs3).
Qed.



(** C7, as the code has it: the exit of a pseudo-state does nothing, so its
    exit hook does not run and nothing leaves the stack; a transition to a
    pseudo-state adds only the transition actions to the trace once the
    source has exited, so the entry hook of the target does not run; and a
    transition to a [Final] leaves the stack as the exit of the source left
    it. *)
Theorem pseudo_state_hooks_never_run limit w p k sup :
  objs w !! p = Some (PseudoState k sup) →
  exit limit p w = (Ok tt, w) ∧
  State_exit limit p w = (Ok tt, w) ∧
  (∀ self o actions m w1 stk,
     objs w !! self = Some o →
     (∀ q, _super_state o = Some q → is_Some (objs w !! q)) →
     state_machine limit p (objs w) = Ok m →
     exit limit self w = (Ok tt, w1) →
     active_states w1 !! m = Some stk →
     (concurrent_member (objs w) o = true → stk ≠ []) →
     ∃ w', transition limit self p actions w = (Ok p, w') ∧
           trace w' = trace w1 ++ map Action actions ∧
           (k = Final → active_states w' = active_states w1)).
Proof.
  intros Hp. split; [by apply exit_pseudo with k sup|]. split.
  - unfold State_exit. by rewrite (run_attr _ _ _ _ _ Hp).
  - intros self o actions m w1 stk Ho Hq Hm Hexit Hs Hne.
    eexists. split;
      [by apply (transition_run _ _ _ _ _ o (PseudoState k sup) m w1 stk)|].
    cbn [is_pseudo]. split.
    + destruct (is_final _); cbn; by rewrite app_nil_r.
    + by intros ->.
Qed.

(** *** Plain composites *)

#[local] Instance transition_frame_preorder : PreOrder (@transition_frame T).
Proof.
  split.
  - intros w. by repeat split.
  - intros w1 w2 w3 (?&?&?&?) (?&?&?&?). repeat split; congruence.
Qed.

Lemma transition_transition_frame limit self new_state actions :
  preserves (T:=T) transition_frame (transition limit self new_state actions).
Proof. apply transition_preserves; try apply _; by intros. Qed.

Lemma transition_returns limit self new_state actions w r w' :
  transition limit self new_state actions w = (Ok r, w') → r = new_state.
Proof.
  unfold transition. intros H.
  repeat (apply bind_inv_ok in H as (? & ? & _ & H)). by injection H as <-.
Qed.

(** C2, as the code has it: when [_transition_to] of a plain composite
    completes, the composite's current child is the target; the tick event
    of the machine is set when the target is a [Final], the composite's
    own or that of another composite, and otherwise the tick event is as
    it was. *)
Theorem composite_transition_to_post limit w self k sup ini fin hist
    new_state o_new actions w' :
  objs w !! self = Some (CompositeState k sup ini fin hist) →
  objs w !! new_state = Some o_new →
  CompositeState__transition_to limit self new_state actions w = (Ok tt, w') →
  _state w' !! self = Some new_state ∧
  (is_final o_new = true →
     ∃ m, state_machine limit self (objs w) = Ok m ∧
          _tick_event w' = <[m := true]> (_tick_event w)) ∧
  (is_final o_new = false → _tick_event w' = _tick_event w) ∧
  (new_state = fin → objs w !! fin = Some (PseudoState Final self) →
     is_final o_new = true).
Proof.
  intros Ho Hnew H. unfold CompositeState__transition_to in H.
  apply bind_inv_ok in H as (s & w0 & Hs & H). apply attr_inv in Hs as [Hs ->].
  apply bind_inv_ok in H as (r & w1 & Htr & H).
  pose proof (transition_returns _ _ _ _ _ _ _ Htr) as ->.
  destruct (transition_transition_frame _ _ _ _ _ _ _ Htr) as (Hobjs & Htick & _).
  rewrite run_modify in H. set (w2 := with_state _ w1) in H.
  assert (Hst2 : _state w2 !! self = Some new_state) by apply lookup_insert_eq.
  rewrite (run_attr _ _ _ _ _ Hst2) in H.
  assert (Ho2 : objs w2 !! new_state = Some o_new) by (by rewrite <- Hobjs in Hnew).
  rewrite (run_attr _ _ _ _ _ Ho2) in H.
  assert (Hown : new_state = fin → objs w !! fin = Some (PseudoState Final self) →
                 is_final o_new = true).
  { intros -> Hfin. rewrite Hfin in Hnew. by injection Hnew as <-. }
  destruct (is_final o_new) eqn:Hf.
  - apply bind_inv_ok in H as (m & w3 & Hm & H).
    injection Hm as Hm <-. change (objs w2) with (objs w1) in Hm.
    rewrite Hobjs in Hm. unfold trigger_tick in H.
    apply bind_inv_ok in H as (t & w4 & Ht & H). apply attr_inv in Ht as [_ ->].
    injection H as <-. split; [exact Hst2|]. split; [|split; [done|exact Hown]].
    intros _. exists m. split; [exact Hm|]. cbn. by rewrite Htick.
  - injection H as <-. split; [exact Hst2|]. split; [done|]. split; [done|exact Hown].
Qed.

(** *** History *)

#[local] Instance below_frame_preorder s : PreOrder (below_frame (T:=T) s).
Proof.
  split.
  - intros w Hwo. done.
  - intros w1 w2 w3 H12 H23 Hwo.
    destruct (H12 Hwo) as (Hwo2 & Ho2 & Hs2).
    destruct (H23 Hwo2) as (Hwo3 & Ho3 & Hs3).
    split; [done|]. split; [congruence|].
    intros c Hc. by rewrite Hs3, Hs2.
Qed.

Lemma below_frame_mono s s' w w' :
  s ≤ s' → below_frame s' w w' → below_frame s w w'.
Proof.
  intros Hle H Hwo. destruct (H Hwo) as (? & ? & Hs).
  split; [done|]. split; [done|]. intros c Hc. apply Hs. lia.
Qed.

Lemma only_stack_and_trace_below s w w' :
  only_stack_and_trace w w' → below_frame s w w'.
Proof.
  intros (Ho & Hs & Hss & _) (Hwo1 & Hwo2 & Hwo3).
  unfold well_ordered. rewrite Ho, Hs, Hss. done.
Qed.

Lemma bind_below {A B} (c : M T A) (k : A → M T B) s w :
  preserves_at (below_frame s) c w →
  (∀ a w1, c w = (Ok a, w1) → well_ordered w → well_ordered w1 →
           preserves_at (below_frame s) (k a) w1) →
  preserves_at (below_frame s) (c ≫= k) w.
Proof.
  intros Hc Hk r w' H.
  apply bind_inv in H as [(a & w1 & H1 & H2)|(e & H1 & _)].
  - pose proof (Hc _ _ H1) as H01. intros Hwo.
    destruct (H01 Hwo) as (Hwo1 & _).
    pose proof (Hk a w1 H1 Hwo Hwo1 _ _ H2) as H12.
    revert Hwo. change (below_frame s w w'). by etransitivity.
  - eapply Hc; eauto.
Qed.

Lemma preserves_preserves_at {A} R (c : M T A) w :
  preserves R c → preserves_at R c w.
Proof. intros H r w' Hc. eapply H, Hc. Qed.

Lemma attr_below {A B} (f : World T → gmap ref A) x (k : A → M T B) s w :
  (∀ a, f w !! x = Some a → well_ordered w → preserves_at (below_frame s) (k a) w) →
  preserves_at (below_frame s) (attr f x ≫= k) w.
Proof.
  intros Hk. apply bind_below.
  - apply preserves_preserves_at, preserves_attr, _.
  - intros a w1 Ha Hwo _. apply attr_inv in Ha as [Ha ->]. by apply Hk.
Qed.

Lemma modify_state_below self x w :
  self < x → below_frame self w (with_state <[self := x]> w).
Proof.
  intros Hlt (Hwo1 & Hwo2 & Hwo3). split; [|split; [done|]].
  - split; [done|]. split; [|done]. cbn. by apply map_Forall_insert_2.
  - intros c Hc. cbn. apply lookup_insert_ne. lia.
Qed.

Lemma modify_states_below self l i x w :
  _states w !! self = Some l → self < x →
  below_frame self w (with_states <[self := <[i := x]> l]> w).
Proof.
  intros Hl Hlt (Hwo1 & Hwo2 & Hwo3). split; [|done].
  split; [done|]. split; [done|]. cbn. apply map_Forall_insert_2; [|done].
  apply Forall_insert; [|done]. by apply (Hwo3 _ _ Hl).
Qed.

Lemma remember_or_reset_below self : preserves (T:=T) (below_frame self) (remember_or_reset self).
Proof.
  intros w. unfold remember_or_reset. apply attr_below. intros o Ho Hwo.
  destruct o as [| |k sup ini fin hist]; try (apply preserves_preserves_at, preserves_raise, _).
  destruct Hwo as (Hwo1 & _). pose proof (Hwo1 _ _ Ho) as (Hini & Hfin & Hh).
  apply attr_below. intros s Hs Hwo.
  assert (Hreset : preserves_at (below_frame self) (modify (with_state <[self:=ini]>)) w).
  { intros r w' H. injection H as _ <-. by apply modify_state_below. }
  destruct hist as [h|]; [|exact Hreset].
  destruct (bool_decide (s ≠ fin)); [|exact Hreset].
  intros r w' H. rewrite run_modify in H. injection H as _ <-.
  etransitivity; [|apply modify_state_below, Hh].
  intros ?. done.
Qed.

Lemma State_exit_below limit self s : preserves (T:=T) (below_frame s) (State_exit limit self).
Proof.
  eapply preserves_weaken; [|apply State_exit_only_stack_and_trace].
  intros; by apply only_stack_and_trace_below.
Qed.

Lemma exit_regions_below (exit : ref → M T unit) self i n :
  (∀ s, preserves (T:=T) (below_frame s) (exit s)) →
  preserves (T:=T) (below_frame self) (exit_regions exit self i n).
Proof.
  intros Hexit. revert i. induction n as [|n IH]; intros i w; cbn [exit_regions].
  - apply preserves_ret, _.
  - apply attr_below. intros l Hl Hwo.
    destruct (l !! i) as [s|] eqn:Hi; [|apply preserves_preserves_at, preserves_ret, _].
    assert (self < s) as Hlt.
    { destruct Hwo as (_ & _ & Hwo3). pose proof (Hwo3 _ _ Hl) as Hall.
      rewrite Forall_lookup in Hall. by apply (Hall i). }
    apply preserves_preserves_at, preserves_bind; [apply _| |intros; apply IH].
    eapply preserves_weaken; [|apply Hexit]. intros ? ?. apply below_frame_mono. lia.
Qed.

Lemma remember_regions_below self h i n :
  self < h → preserves (T:=T) (below_frame self) (remember_regions self h i n).
Proof.
  intros Hlt. revert i. induction n as [|n IH]; intros i w; cbn [remember_regions].
  - apply preserves_ret, _.
  - apply attr_below. intros l Hl Hwo.
    destruct (l !! i) as [s|] eqn:Hi; [|apply preserves_preserves_at, preserves_ret, _].
    apply attr_below. intros rs Hrs _.
    apply bind_below.
    { destruct (bool_decide (i < length rs)); apply preserves_preserves_at.
      - apply preserves_modify. intros ? ?. done.
      - apply preserves_raise, _. }
    intros [] w1 _ _ Hwo1. apply attr_below. intros l1 Hl1 _.
    apply bind_below.
    { intros r w' H. injection H as _ <-. by apply modify_states_below. }
    intros [] w2 _ _ _. apply preserves_preserves_at, IH.
Qed.

Lemma reset_regions_below self ini i n :
  self < ini → preserves (T:=T) (below_frame self) (reset_regions self ini i n).
Proof.
  intros Hlt. revert i. induction n as [|n IH]; intros i w; cbn [reset_regions].
  - apply preserves_ret, _.
  - apply attr_below. intros l Hl Hwo.
    destruct (l !! i) as [s|] eqn:Hi; [|apply preserves_preserves_at, preserves_ret, _].
    apply bind_below.
    { intros r w' H. injection H as _ <-. by apply modify_states_below. }
    intros [] w2 _ _ _. apply preserves_preserves_at, IH.
Qed.

Lemma exit_below limit self : preserves (T:=T) (below_frame self) (exit limit self).
Proof.
  revert self. induction limit as [|n IH]; intros self w; cbn [exit];
    apply attr_below; intros o Ho Hwo;
    (destruct o as [| |k sup ini fin hist];
      [apply preserves_preserves_at, State_exit_below
      |apply preserves_preserves_at, State_exit_below|]).
  - apply preserves_preserves_at, preserves_raise, _.
  - pose proof (proj1 Hwo _ _ Ho) as (Hini & Hfin & Hh).
    assert (Hplain : preserves_at (below_frame self)
              (CompositeState_exit (exit n) (S n) self) w).
    { unfold CompositeState_exit. apply attr_below. intros s Hs Hwo'.
      assert (self < s) as Hlt by (by apply (proj1 (proj2 Hwo') _ _ Hs)).
      apply preserves_preserves_at, preserves_bind; [apply _| |intros _].
      - eapply preserves_weaken; [|apply IH]. intros ? ?. apply below_frame_mono. lia.
      - apply preserves_bind; [apply _|apply remember_or_reset_below|intros _].
        apply State_exit_below. }
    destruct k; [exact Hplain|exact Hplain|].
    unfold ConcurrentCompositeState_exit. apply attr_below. intros l Hl _.
    apply bind_below; [apply preserves_preserves_at, exit_regions_below, IH|].
    intros [] w1 _ _ Hwo1. apply attr_below. intros o1 Ho1 _.
    apply preserves_preserves_at, preserves_bind; [apply _| |intros _; apply State_exit_below].
    destruct o1 as [| |k1 sup1 ini1 fin1 hist1]; try (apply preserves_raise, _).
    pose proof (proj1 Hwo1 _ _ Ho1) as (Hini1 & Hfin1 & Hh1).
    apply preserves_bind; [apply _|apply preserves_attr, _|intros l1].
    destruct hist1 as [h1|]; [|by apply reset_regions_below].
    destruct (existsb _ l1); [by apply remember_regions_below|by apply reset_regions_below].
Qed.

Lemma the_history_run w self k sup ini fin hist :
  objs w !! self = Some (CompositeState k sup ini fin hist) →
  the_history self w = (Ok hist, w).
Proof. intros Ho. unfold the_history. by rewrite (run_attr _ _ _ _ _ Ho). Qed.

Lemma CompositeState_exit_inv limit w self k sup ini fin hist s w' :
  well_ordered w →
  objs w !! self = Some (CompositeState k sup ini fin hist) →
  k ≠ Concurrent →
  _state w !! self = Some s →
  exit limit self w = (Ok tt, w') →
  ∃ w1 w2, _state w1 !! self = Some s ∧ objs w1 = objs w ∧
           remember_or_reset self w1 = (Ok tt, w2) ∧
           only_stack_and_trace w2 w'.
Proof.
  intros Hwo Ho Hk Hs H.
  destruct limit as [|n]; cbn [exit] in H; rewrite (run_attr _ _ _ _ _ Ho) in H;
    [done|].
  assert (H' : CompositeState_exit (exit n) (S n) self w = (Ok tt, w'))
    by (by destruct k).
  clear H. unfold CompositeState_exit in H'.
  rewrite (run_attr _ _ _ _ _ Hs) in H'.
  apply bind_inv_ok in H' as ([] & w1 & Hexit & H').
  apply bind_inv_ok in H' as ([] & w2 & Hrem & H').
  exists w1, w2.
  destruct (exit_below _ _ _ _ _ Hexit Hwo) as (_ & Hobjs & Hframe).
  assert (self < s) as Hlt by (by apply (proj1 (proj2 Hwo) _ _ Hs)).
  split; [by rewrite Hframe|]. split; [done|]. split; [done|].
  by apply (State_exit_only_stack_and_trace _ _ _ _ _ H').
Qed.

(** C3: a plain composite with a history that exits while its current child
    is not its [Final] stores that child in the history and makes the history
    pseudo-state its current child; one that exits at its [Final] is reset to
    its [Initial].  [_handle_history] fails when nothing is remembered;
    otherwise it moves to the remembered child, with the entry of that child
    as the only hook that runs, and forgets it. *)
Theorem composite_history limit w self k sup ini fin h :
  objs w !! self = Some (CompositeState k sup ini fin (Some h)) →
  k ≠ Concurrent →
  (∀ s w', well_ordered w → _state w !! self = Some s → s ≠ fin →
     exit limit self w = (Ok tt, w') →
     state_to_return_to w' !! h = Some (Some s) ∧ _state w' !! self = Some h) ∧
  (∀ w', well_ordered w → _state w !! self = Some fin →
     exit limit self w = (Ok tt, w') →
     _state w' !! self = Some ini) ∧
  (∀ t o_t m stk,
     objs w !! h = Some (PseudoState History self) →
     _state w !! self = Some h →
     state_to_return_to w !! h = Some (Some t) →
     objs w !! t = Some o_t → is_final o_t = false →
     state_machine limit t (objs w) = Ok m →
     active_states w !! m = Some stk →
     CompositeState__handle_history limit self w
     = (Ok tt,
        with_return <[h := None]>
          (with_state <[self := t]>
             (with_active <[m := stk ++ [Single t]]>
                (with_trace (λ tr, tr ++ if is_pseudo o_t then [] else entry_trace t)
                   w))))) ∧
  (state_to_return_to w !! h = Some None →
     CompositeState__handle_history limit self w
     = (Raise (AssertionError no_state_to_return_to), w)).
Proof.
  intros Ho Hk. split; [|split; [|split]].
  - intros s w' Hwo Hs Hne H.
    destruct (CompositeState_exit_inv _ _ _ _ _ _ _ _ _ _ Hwo Ho Hk Hs H)
      as (w1 & w2 & Hs1 & Hobjs & Hrem & Hfr).
    unfold remember_or_reset in Hrem.
    rewrite <- Hobjs in Ho. rewrite (run_attr _ _ _ _ _ Ho) in Hrem.
    rewrite (run_attr _ _ _ _ _ Hs1) in Hrem.
    rewrite bool_decide_eq_true_2 in Hrem by done.
    injection Hrem as <-.
    destruct Hfr as (_ & Hst & _ & Hret & _). rewrite Hst, Hret. cbn.
    split; apply lookup_insert_eq.
  - intros w' Hwo Hs H.
    destruct (CompositeState_exit_inv _ _ _ _ _ _ _ _ _ _ Hwo Ho Hk Hs H)
      as (w1 & w2 & Hs1 & Hobjs & Hrem & Hfr).
    unfold remember_or_reset in Hrem.
    rewrite <- Hobjs in Ho. rewrite (run_attr _ _ _ _ _ Ho) in Hrem.
    rewrite (run_attr _ _ _ _ _ Hs1) in Hrem.
    rewrite bool_decide_eq_false_2 in Hrem by (intros ?; done).
    injection Hrem as <-.
    destruct Hfr as (_ & Hst & _). rewrite Hst. cbn. apply lookup_insert_eq.
  - intros t o_t m stk Hh Hs Hret Ht Hnf Hm Hstk.
    unfold CompositeState__handle_history.
    rewrite (run_ok _ _ _ _ _ (the_history_run _ _ _ _ _ _ _ Ho)).
    rewrite (run_attr _ _ _ _ _ Hret). cbn beta iota.
    unfold CompositeState__transition_to. rewrite bind_run.
    rewrite (run_attr _ _ _ _ _ Hs).
    assert (Htr : transition limit h t [] w
              = (Ok t, with_active <[m := stk ++ [Single t]]>
                         (with_trace (λ tr, tr ++ if is_pseudo o_t then [] else entry_trace t)
                            w))).
    { unfold transition. rewrite (run_ok _ _ _ _ _ (exit_pseudo _ _ _ _ _ Hh)).
      cbn [run_actions]. mrun. rewrite (run_attr _ _ _ _ _ Ht).
      rewrite Hnf. cbn [negb]. rewrite bind_run.
      set (w3 := with_trace _ w).
      assert (Hentry : (if negb (is_pseudo o_t) then entry t else ret ()) w = (Ok tt, w3)).
      { subst w3. destruct (is_pseudo o_t); cbn [negb].
        - unfold with_trace. cbn. rewrite app_nil_r. by destruct w.
        - apply entry_run. }
      rewrite Hentry. rewrite bind_run.
      erewrite run_ok; [|apply (super_is_concurrent_run w3 h _ Hh)].
      2:{ intros p [= <-]. change (objs w3) with (objs w). by rewrite Ho. }
      change (objs w3) with (objs w). unfold concurrent_member. cbn [_super_state].
      rewrite Ho. assert (is_concurrent (CompositeState k sup ini fin (Some h)) = false)
        as -> by (by destruct k).
      assert (Hm3 : state_machine limit t (objs w3) = Ok m) by done.
      assert (Hs3 : active_states w3 !! m = Some stk) by done.
      by rewrite (activate_run _ _ _ _ _ Hm3 Hs3). }
    rewrite (run_ok _ _ _ _ _ Htr). mrun.
    erewrite run_attr; [|apply lookup_insert_eq].
    erewrite run_attr; [|exact Ht]. by rewrite Hnf.
  - intros Hret. unfold CompositeState__handle_history.
    rewrite (run_ok _ _ _ _ _ (the_history_run _ _ _ _ _ _ _ Ho)).
    by rewrite (run_attr _ _ _ _ _ Hret).
Qed.

(** *** Concurrent composites *)

(** C4: a concurrent composite is at its final state exactly when the
    current child of every one of its regions is its [_final]. *)
Theorem concurrent_is_at_final_state_iff w self sup ini fin hist (l : list ref) :
  objs w !! self = Some (CompositeState Concurrent sup ini fin hist) →
  _states w !! self = Some l →
  ∃ b, ConcurrentCompositeState_is_at_final_state self w = (Ok b, w) ∧
       (b = true ↔ ∀ i, i < length l → l !! i = Some fin).
Proof.
  intros Ho Hl. exists (forallb (λ s, bool_decide (s = fin)) l). split.
  - unfold ConcurrentCompositeState_is_at_final_state, the_final. munfold.
    rewrite Hl. destruct l; [done|]. by rewrite Ho.
  - rewrite forallb_forall. split.
    + intros H i Hi. destruct (lookup_lt_is_Some_2 l i Hi) as [x Hx].
      rewrite Hx. f_equal. eapply bool_decide_eq_true_1, H.
      apply list_elem_of_In. eapply list_elem_of_lookup_2; eauto.
    + intros H x Hx. apply bool_decide_eq_true_2.
      apply list_elem_of_In, list_elem_of_lookup in Hx as [i Hi].
      pose proof (lookup_lt_Some _ _ _ Hi) as Hlt.
      specialize (H i Hlt). congruence.
Qed.


(** C9, as the code has it: the constructor of a concurrent composite does
    not look at the region count.  For every count [N] it succeeds and makes
    the current children a vector of [N] copies (none when [N] is negative)
    of the new [Initial]; with a history, the history node holds as many
    empty return states. *)
Theorem concurrent_init_regions w (N : Z) sup (has_history : bool) :
  ∃ self ini fin hist w',
    ConcurrentCompositeState__init__ N sup has_history w = (Ok self, w') ∧
    objs w' !! self = Some (CompositeState Concurrent sup ini fin hist) ∧
    objs w' !! ini = Some (PseudoState Initial self) ∧
    _states w' !! self = Some (replicate (Z.to_nat N) ini) ∧
    if has_history
    then ∃ h, hist = Some h ∧
              objs w' !! h = Some (PseudoState ConcurrentHistory self) ∧
              states_to_return_to w' !! h = Some (replicate (Z.to_nat N) None)
    else hist = None.
Proof.
  destruct has_history.
  - do 5 eexists. split; [reflexivity|]. cbn.
    split; [apply lookup_insert_eq|].
    split; [by rewrite !lookup_insert_ne, lookup_insert_eq by lia|].
    split; [apply lookup_insert_eq|].
    eexists. split; [reflexivity|].
    split; [by rewrite lookup_insert_ne, lookup_insert_eq by lia|].
    apply lookup_insert_eq.
  - do 5 eexists. split; [reflexivity|]. cbn.
    split; [apply lookup_insert_eq|].
    split; [by rewrite !lookup_insert_ne, lookup_insert_eq by lia|].
    split; [apply lookup_insert_eq|]. reflexivity.
Qed.

(** *** The transition table *)

Lemma CompositeState_do_missing (call : handle → M T unit) w self s table :
  _state w !! self = Some s →
  _transitions_per_state w !! self = Some table →
  table !! s = None →
  CompositeState_do call self w
  = (Ok tt, with_trace (λ t, t ++ [Call do_actions self; Puml (p_do self)]) w).
Proof.
  intros Hs Ht Hnone. unfold CompositeState_do, CompositeState__transitions.
  mrun. rewrite with_trace_app. cbn [app]. set (w1 := with_trace _ w).
  assert (Hs1 : _state w1 !! self = Some s) by done.
  assert (Ht1 : _transitions_per_state w1 !! self = Some table) by done.
  by rewrite (run_attr _ _ _ _ _ Hs1), (run_attr _ _ _ _ _ Ht1), Hnone.
Qed.

(** C8, as the code has it: nothing checks the transition table.  A
    composite is built with an empty table, registering a table never fails,
    whatever it lacks, and [do()] of a composite whose table has no entry for
    the current child, [Initial] or any other, runs the do actions and leaves
    everything else as it is. *)
Theorem missing_transition_is_noop (call : handle → M T unit) w :
  (∀ k sup has_history,
     ∃ self ini w',
       CompositeState__init__ k sup has_history w = (Ok self, w') ∧
       _state w' !! self = Some ini ∧
       _transitions_per_state w' !! self = Some ∅ ∧
       CompositeState_do call self w'
       = (Ok tt, with_trace (λ t, t ++ [Call do_actions self; Puml (p_do self)]) w')) ∧
  (∀ self table new,
     _transitions_per_state w !! self = Some table →
     _set_transitions_per_state self new w
     = (Ok tt, with_transitions <[self := new ∪ table]> w)) ∧
  (∀ self s table,
     _state w !! self = Some s →
     _transitions_per_state w !! self = Some table →
     table !! s = None →
     CompositeState_do call self w
     = (Ok tt, with_trace (λ t, t ++ [Call do_actions self; Puml (p_do self)]) w)).
Proof.
  split; [|split].
  - intros k sup has_history.
    assert (∃ self ini w',
       CompositeState__init__ k sup has_history w = (Ok self, w') ∧
       _state w' !! self = Some ini ∧
       _transitions_per_state w' !! self = Some ∅) as (self & ini & w' & Hi & Hs & Ht).
    { destruct has_history; do 3 eexists; (split; [reflexivity|]); cbn;
        split; apply lookup_insert_eq. }
    exists self, ini, w'. split; [done|]. split; [done|]. split; [done|].
    by apply (CompositeState_do_missing call w' self ini ∅).
  - intros self table new Ht. unfold _set_transitions_per_state.
    by rewrite (run_attr _ _ _ _ _ Ht).
  - intros self s table. apply CompositeState_do_missing.
Qed.

(** *** Events *)

Lemma Event_set_run w self e t :
  events w !! self = Some e →
  _tick_event w !! ev_state_machine e = Some t →
  Event_set self w =
    (Ok tt, with_tick <[ev_state_machine e := true]>
              (with_trace (λ l, l ++ [Puml (p_rnote (ev_name e))])
                 (with_events <[self := set_flag true e]> w))).
Proof.
  intros He Ht. unfold Event_set, trigger_tick. munfold. rewrite He. cbn.
  rewrite Ht. reflexivity.
Qed.

Lemma Event_call_run w self e :
  events w !! self = Some e →
  Event__call__ self w =
    if ev_event e then (Ok true, with_events <[self := set_flag false e]> w)
    else (Ok false, w).
Proof.
  intros He. unfold Event__call__, Event_clear. munfold. rewrite He.
  destruct (ev_event e); [|done]. by rewrite He.
Qed.

Lemma times_set w self e k :
  events w !! self = Some e →
  is_Some (_tick_event w !! ev_state_machine e) →
  ∃ w', times (S k) (Event_set self) w = (Ok (replicate (S k) tt), w') ∧
        events w' !! self = Some (set_flag true e).
Proof.
  revert w e. induction k as [|k IH]; intros w e He [t Ht].
  - eexists. cbn [times]. rewrite bind_run, (Event_set_run _ _ _ _ He Ht).
    split; [reflexivity|]. cbn. apply lookup_insert_eq.
  - cbn [times]. rewrite bind_run, (Event_set_run _ _ _ _ He Ht).
    edestruct (IH (with_tick <[ev_state_machine e:=true]>
       (with_trace (λ l : list TraceEv, l ++ [Puml (p_rnote (ev_name e))])
          (with_events <[self:=set_flag true e]> w))) (set_flag true e)) as (w' & Hrun & Hev).
    { cbn. apply lookup_insert_eq. }
    { cbn. rewrite lookup_insert_eq. eauto. }
    exists w'. split; [|exact Hev].
    rewrite bind_run. cbn [times] in Hrun. rewrite Hrun. reflexivity.
Qed.

Lemma times_poll w self e n :
  events w !! self = Some e →
  ∃ w', times n (Event__call__ self) w =
          (Ok (if ev_event e then one_true n else replicate n false), w') ∧
        ev_event <$> events w' !! self
        = Some (match n with 0 => ev_event e | S _ => false end).
Proof.
  revert w e. induction n as [|n IH]; intros w e He.
  - exists w. split; [by destruct (ev_event e)|by rewrite He].
  - cbn [times]. rewrite bind_run, (Event_call_run _ _ _ He).
    destruct (ev_event e) eqn:Hf.
    + edestruct (IH (with_events <[self:=set_flag false e]> w) (set_flag false e))
        as (w' & Hrun & Hflag).
      { cbn. apply lookup_insert_eq. }
      exists w'. rewrite bind_run, Hrun. split; [reflexivity|].
      rewrite Hflag. destruct n; reflexivity.
    + destruct (IH w e He) as (w' & Hrun & Hflag). rewrite Hf in Hrun.
      exists w'. rewrite bind_run, Hrun. split; [reflexivity|].
      rewrite Hflag. destruct n; [exact (f_equal Some Hf)|reflexivity].
Qed.

(** C5: however often an event is set, the first poll after it answers true
    and clears the flag, and the polls that follow answer false; this holds
    from any state of the event, so until the next [set]. *)
Theorem event_polled_once_per_set w self e k n :
  events w !! self = Some e →
  is_Some (_tick_event w !! ev_state_machine e) →
  ∃ w', (times (S k) (Event_set self);; times n (Event__call__ self)) w
        = (Ok (one_true n), w') ∧
        ev_event <$> events w' !! self
        = Some (match n with 0 => true | S _ => false end).
Proof.
  intros He Ht. destruct (times_set w self e k He Ht) as (w1 & Hset & Hev).
  destruct (times_poll w1 self _ n Hev) as (w2 & Hpoll & Hflag).
  exists w2. rewrite bind_run, Hset. split; [exact Hpoll|exact Hflag].
Qed.

Lemma perform_value w self e c :
  events w !! self = Some e →
  ∃ e', events (snd (perform self c w)) !! self = Some e' ∧
        ev_value e' = last_stored (ev_value e) [c].
Proof.
  intros He. destruct c as [| | |[v|]]; cbn [perform last_stored].
  - exists (set_flag true e). split; [|done].
    unfold Event_set, trigger_tick. munfold. rewrite He. cbn.
    destruct (_ !! ev_state_machine e); cbn; apply lookup_insert_eq.
  - rewrite bind_run, (Event_call_run _ _ _ He).
    destruct (ev_event e); cbn; [|eauto].
    exists (set_flag false e). split; [apply lookup_insert_eq|done].
  - exists (set_flag false e). split; [|done].
    unfold Event_clear. munfold. rewrite He. cbn. apply lookup_insert_eq.
  - exists (set_flag true (set_payload (Some v) e)). split; [|done].
    unfold EventWithValue_set_value, Event_set, trigger_tick. munfold.
    rewrite bool_decide_eq_true_2 by eauto. cbn. rewrite He. cbn.
    rewrite lookup_insert_eq. cbn.
    destruct (_ !! ev_state_machine e); cbn; rewrite insert_insert_eq; apply lookup_insert_eq.
  - exists e. split; [|done].
    unfold EventWithValue_set_value. munfold.
    rewrite bool_decide_eq_false_2; [done|]. by intros [? ?].
Qed.

Lemma last_stored_cons (v0 : option T) c cs :
  last_stored v0 (c :: cs) = last_stored (last_stored v0 [c]) cs.
Proof. destruct c as [| | |[v|]]; reflexivity. Qed.

Lemma perform_all_value w self e cs :
  events w !! self = Some e →
  ∃ e', events (snd (perform_all self cs w)) !! self = Some e' ∧
        ev_value e' = last_stored (ev_value e) cs.
Proof.
  revert w e. induction cs as [|c cs IH]; intros w e He; [by exists e|].
  destruct (perform_value w self e c He) as (e1 & He1 & Hv1).
  destruct (IH _ _ He1) as (e2 & He2 & Hv2).
  exists e2. rewrite last_stored_cons, <- Hv1. split; [|exact Hv2].
  cbn [perform_all]. rewrite bind_run. unfold attempt at 1. exact He2.
Qed.

Lemma last_stored_Some (v : T) cs : is_Some (last_stored (Some v) cs).
Proof.
  revert v. induction cs as [|[| | |[v'|]] cs IH]; intros v; cbn; eauto.
Qed.

Lemma last_stored_None (cs : list (EventCall T)) :
  last_stored None cs = None ↔ ∀ v, c_set_value (Some v) ∉ cs.
Proof.
  induction cs as [|c cs IH].
  - split; [|done]. intros _ v Hin. by apply elem_of_nil in Hin.
  - assert (Hother : (∀ v, c ≠ c_set_value (Some v)) →
              last_stored None (c :: cs) = last_stored None cs).
    { intros Hc. destruct c as [| | |[v|]]; try reflexivity. by destruct (Hc v). }
    assert (Hdec : (∃ v, c = c_set_value (Some v)) ∨ ∀ v, c ≠ c_set_value (Some v)).
    { destruct c as [| | |[v|]]; eauto; right; intros; discriminate. }
    destruct Hdec as [[v ->]|Hno].
    + cbn. split.
      * intros H. destruct (last_stored_Some v cs) as [x Hx]. congruence.
      * intros H. destruct (H v). apply list_elem_of_here.
    + rewrite (Hother Hno), IH.
      split; intros H v Hin.
      * apply elem_of_cons in Hin as [Heq|Hin]; [by destruct (Hno v)|by apply (H v)].
      * apply (H v). by apply list_elem_of_further.
Qed.

(** C10: [set_value] with a payload stores it and sets the flag; after any
    calls on a fresh event, whether they fail or not, the [value] getter
    answers the payload stored last, polls and clears notwithstanding, and
    fails exactly when no payload was ever stored. *)
Theorem event_value_persists w self e :
  events w !! self = Some e →
  (∀ (v : T) t, _tick_event w !! ev_state_machine e = Some t →
     ∃ w1, EventWithValue_set_value self (Some v) w = (Ok tt, w1) ∧
           events w1 !! self = Some (mkEvent (ev_state_machine e) (ev_name e) true (Some v))) ∧
  (ev_value e = None → ∀ cs,
     let w' := snd (perform_all self cs w) in
     EventWithValue_value self w'
       = (match last_stored None cs with
          | Some v => Ok v
          | None => Raise (AssertionError value_is_None)
          end, w') ∧
     ((∃ er, fst (EventWithValue_value self w') = Raise er)
        ↔ ∀ v, c_set_value (Some v) ∉ cs)).
Proof.
  intros He. split.
  - intros v t Ht. eexists. split.
    + unfold EventWithValue_set_value, Event_set, trigger_tick. munfold.
      rewrite bool_decide_eq_true_2 by eauto. cbn. rewrite He. cbn.
      rewrite lookup_insert_eq. cbn. rewrite Ht. reflexivity.
    + cbn. rewrite insert_insert_eq. apply lookup_insert_eq.
  - intros Hv cs w'.
    destruct (perform_all_value w self e cs He) as (e' & He' & Hv').
    rewrite Hv in Hv'. fold w' in He'.
    assert (Hrun : EventWithValue_value self w'
       = (match last_stored None cs with
          | Some v => Ok v
          | None => Raise (AssertionError value_is_None)
          end, w')).
    { unfold EventWithValue_value. munfold. rewrite He', Hv'.
      by destruct (last_stored None cs). }
    split; [exact Hrun|]. rewrite Hrun, <- last_stored_None. cbn.
    destruct (last_stored None cs); split; try done; eauto.
    by intros [er ?].
Qed.

(** ** More of the code *)

(** Two stores with the same attributes are the same store. *)
Lemma World_eq w1 w2 :
  objs w1 = objs w2 → _state w1 = _state w2 → _states w1 = _states w2 →
  state_to_return_to w1 = state_to_return_to w2 →
  states_to_return_to w1 = states_to_return_to w2 →
  _transitions_per_state w1 = _transitions_per_state w2 →
  active_states w1 = active_states w2 → _tick_event w1 = _tick_event w2 →
  events w1 = events w2 → trace w1 = trace w2 → next_ref w1 = next_ref w2 →
  w1 = w2.
Proof. destruct w1, w2. cbn. intros. by subst. Qed.

Ltac world_eq :=
  apply World_eq;
  cbn [objs _state _states state_to_return_to states_to_return_to
       _transitions_per_state active_states _tick_event events trace next_ref
       with_objs with_state with_states with_return with_returns
       with_transitions with_active with_tick with_events with_trace with_next];
  try reflexivity.

(** *** The stack *)

Lemma with_active_id w m stk :
  active_states w !! m = Some stk → with_active <[m := stk]> w = w.
Proof.
  intros H. unfold with_active. rewrite (insert_id _ _ _ H). by destruct w.
Qed.

(** X1: [deactivate] undoes [activate]: the stack is as before; and
    [deactivate] on an empty stack raises [IndexError]. *)
Theorem activate_deactivate limit w self m stk :
  state_machine limit self (objs w) = Ok m →
  active_states w !! m = Some stk →
  (activate limit self;; deactivate limit self) w = (Ok tt, w) ∧
  (stk = [] → deactivate limit self w = (Raise IndexError, w)).
Proof.
  intros Hm Hs. split.
  - rewrite (run_ok _ _ _ _ _ (activate_run _ _ _ _ _ Hm Hs)).
    erewrite deactivate_run; [|exact Hm|apply lookup_insert_eq|apply last_snoc].
    rewrite removelast_last. unfold with_active at 1. cbn.
    rewrite insert_insert_eq. fold (with_active <[m := stk]> w).
    by rewrite with_active_id.
  - intros ->. unfold deactivate.
    by rewrite (run_ok _ _ _ _ _ (the_active_states_run _ _ _ _ _ Hm Hs)).
Qed.

Lemma activated_top self stk :
  stk ≠ [] →
  ∃ ss, last (activated true self stk) = Some (Region ss) ∧ self ∈ ss ∧
        removelast (activated true self stk)
        = match last stk with
          | Some (Region _) => removelast stk
          | _ => stk
          end ∧
        ss = match last stk with
             | Some (Region ss0) => {[self]} ∪ ss0
             | _ => {[self]}
             end.
Proof.
  intros Hne. unfold activated.
  destruct (last stk) as [[s|ss0]|] eqn:Hl.
  - exists {[self]}. rewrite last_snoc, removelast_last.
    repeat split. by apply elem_of_singleton.
  - exists ({[self]} ∪ ss0). rewrite last_snoc, removelast_last.
    repeat split. apply elem_of_union_l. by apply elem_of_singleton.
  - by apply last_None in Hl.
Qed.

(** X2: [deactivate_concurrent_state] undoes [activate_concurrent_state]
    for a state that was not yet in the set on the top: a fresh set is popped
    again, a set that was there gets back its members. *)
Theorem activate_deactivate_concurrent_state limit w self m stk :
  state_machine limit self (objs w) = Ok m →
  active_states w !! m = Some stk →
  stk ≠ [] →
  (∀ ss, last stk = Some (Region ss) → (self ∉ ss) ∧ (ss ≠ ∅)) →
  (activate_concurrent_state limit self;; deactivate_concurrent_state limit self) w
  = (Ok tt, w).
Proof.
  intros Hm Hs Hne Hfresh.
  rewrite (run_ok _ _ _ _ _ (activate_concurrent_state_run _ _ _ _ _ Hm Hs Hne)).
  destruct (activated_top self stk Hne) as (ss & Hl & Hin & Hrem & Hss).
  erewrite deactivate_concurrent_state_run;
    [|exact Hm|apply lookup_insert_eq|exact Hl|exact Hin].
  assert (Hback : stack_without self (activated true self stk) = stk).
  { unfold stack_without. rewrite Hl, Hrem, Hss.
    destruct (last stk) as [[s|ss0]|] eqn:Hl0.
    - by rewrite decide_True by apply difference_diag_L.
    - destruct (Hfresh ss0 eq_refl) as [Hnin Hne0].
      assert (({[self]} ∪ ss0) ∖ {[self]} = ss0) as ->.
      { apply set_eq. intros x.
        rewrite elem_of_difference, elem_of_union, elem_of_singleton.
        split; [by intros [[?|?] ?]|].
        intros Hx. split; [by right|]. by intros ->. }
      rewrite decide_False by done.
      apply last_Some in Hl0 as [stk' ->]. by rewrite removelast_last.
    - by apply last_None in Hl0. }
  rewrite Hback. unfold with_active at 1. cbn. rewrite insert_insert_eq.
  fold (with_active <[m := stk]> w). by rewrite with_active_id.
Qed.

(** X3: two states activated as region members on a stack whose top is a
    single state share one new set: the stack grows by one frame. *)
Theorem activate_concurrent_state_groups limit w a b m stk s :
  state_machine limit a (objs w) = Ok m →
  state_machine limit b (objs w) = Ok m →
  active_states w !! m = Some stk →
  last stk = Some (Single s) →
  (activate_concurrent_state limit a;; activate_concurrent_state limit b) w
  = (Ok tt, with_active <[m := stk ++ [Region ({[b]} ∪ {[a]})]]> w).
Proof.
  intros Ha Hb Hs Hl.
  assert (Hne : stk ≠ []) by (intros ->; done).
  rewrite (run_ok _ _ _ _ _ (activate_concurrent_state_run _ _ _ _ _ Ha Hs Hne)).
  erewrite activate_concurrent_state_run;
    [|exact Hb|apply lookup_insert_eq|unfold activated; rewrite Hl; by destruct stk].
  unfold activated. rewrite Hl, last_snoc, removelast_last.
  unfold with_active. cbn. by rewrite insert_insert_eq.
Qed.

(** *** The state machine of a state *)

(** X4: the [state_machine] property answers a [StateMachine] object, and a
    higher recursion limit does not change its answer. *)
Theorem state_machine_is_machine limit self (os : gmap ref Obj) m :
  state_machine limit self os = Ok m →
  (∃ o, os !! m = Some o ∧ is_state_machine o = true) ∧
  (∀ limit', limit ≤ limit' → state_machine limit' self os = Ok m).
Proof.
  revert self. induction limit as [|n IH]; intros self H; cbn [state_machine] in H.
  - destruct (os !! self) as [o|] eqn:Ho; [|done].
    destruct (is_state_machine o) eqn:Hsm.
    + injection H as <-. split; [eauto|].
      intros limit' _. destruct limit'; cbn [state_machine]; by rewrite Ho, Hsm.
    + by destruct (_super_state o).
  - destruct (os !! self) as [o|] eqn:Ho; [|done].
    destruct (is_state_machine o) eqn:Hsm.
    + injection H as <-. split; [eauto|].
      intros limit' _. destruct limit'; cbn [state_machine]; by rewrite Ho, Hsm.
    + destruct (_super_state o) as [p|] eqn:Hp; [|done].
      destruct (IH p H) as [Hm Hmono]. split; [exact Hm|].
      intros [|n'] Hle; [lia|]. cbn [state_machine]. rewrite Ho, Hsm, Hp.
      apply Hmono. lia.
Qed.

(** *** Transitions between the children of a plain composite *)

Lemma concurrent_member_of_plain w self k sup ini fin hist o :
  objs w !! self = Some (CompositeState k sup ini fin hist) →
  k ≠ Concurrent →
  _super_state o = Some self →
  concurrent_member (objs w) o = false ∧
  ∀ p, _super_state o = Some p → is_Some (objs w !! p).
Proof.
  intros Ho Hk Hsup. unfold concurrent_member. rewrite Hsup, Ho. split.
  - by destruct k.
  - intros p [= <-]. eauto.
Qed.

Lemma CompositeState__transition_to_run limit w self k sup ini fin hist s o_s
    new_state o_new actions m w1 stk :
  objs w !! self = Some (CompositeState k sup ini fin hist) →
  k ≠ Concurrent →
  _state w !! self = Some s →
  objs w !! s = Some o_s →
  _super_state o_s = Some self →
  objs w !! new_state = Some o_new →
  is_final o_new = false →
  state_machine limit new_state (objs w) = Ok m →
  exit limit s w = (Ok tt, w1) →
  active_states w1 !! m = Some stk →
  CompositeState__transition_to limit self new_state actions w
  = (Ok tt,
     with_state <[self := new_state]>
       (with_active <[m := stk ++ [Single new_state]]>
          (with_trace
             (λ t, t ++ (map Action actions
                         ++ if is_pseudo o_new then [] else entry_trace new_state))
             w1))).
Proof.
  intros Ho Hk Hs Hos Hsup Hnew Hnf Hm Hexit Hstk.
  destruct (concurrent_member_of_plain _ _ _ _ _ _ _ o_s Ho Hk Hsup) as [Hcm Hp].
  unfold CompositeState__transition_to. rewrite (run_attr _ _ _ _ _ Hs).
  erewrite run_ok;
    [|apply (transition_run _ _ _ _ _ o_s o_new m w1 stk); try done;
      by rewrite Hcm].
  rewrite Hnf, Hcm. cbn [activated]. mrun.
  destruct (exit_exit_frame _ _ _ _ _ Hexit) as (Hobjs & _).
  erewrite run_attr; [|apply lookup_insert_eq].
  erewrite run_attr; [|cbn; by rewrite Hobjs]. by rewrite Hnf.
Qed.

(** X5: [_transition_to] of a plain composite whose current child is a
    simple state on the top of the stack, to a target that is no [Final],
    completes: the child runs its exit and is popped, the actions run in
    order, the target is entered (unless a pseudo-state) and pushed, and it
    is the current child.  The target may be the child itself. *)
Theorem transition_between_children limit w self k sup ini fin hist s
    new_state o_new actions m stk :
  objs w !! self = Some (CompositeState k sup ini fin hist) →
  k ≠ Concurrent →
  _state w !! self = Some s →
  objs w !! s = Some (SimpleState (Some self)) →
  objs w !! new_state = Some o_new →
  is_final o_new = false →
  state_machine limit s (objs w) = Ok m →
  state_machine limit new_state (objs w) = Ok m →
  active_states w !! m = Some (stk ++ [Single s]) →
  CompositeState__transition_to limit self new_state actions w
  = (Ok tt,
     with_state <[self := new_state]>
       (with_active <[m := stk ++ [Single new_state]]>
          (with_trace
             (λ t, t ++ exit_trace s ++ [Puml (p_deactivate s)]
                     ++ map Action actions
                     ++ if is_pseudo o_new then [] else entry_trace new_state)
             w))).
Proof.
  intros Ho Hk Hs Hos Hnew Hnf Hms Hm Hstk.
  destruct (concurrent_member_of_plain _ _ _ _ _ _ _ _ Ho Hk
              (eq_refl : _super_state (SimpleState (Some self)) = Some self))
    as [Hcm Hp].
  pose proof (State_exit_run limit w s _ m _ Hos eq_refl (ex_intro _ self eq_refl)
                Hp Hms Hstk) as Hexit.
  cbn zeta in Hexit. rewrite Hcm in Hexit.
  assert (Hpos : positioned false s (stk ++ [Single s]) = true).
  { unfold positioned. rewrite last_snoc. cbn. by apply bool_decide_eq_true_2. }
  rewrite Hpos in Hexit. rewrite <- (exit_simple _ _ _ _ Hos) in Hexit.
  assert (Hwo : stack_without s (stk ++ [Single s]) = stk).
  { unfold stack_without. by rewrite last_snoc, removelast_last. }
  rewrite Hwo in Hexit.
  erewrite (CompositeState__transition_to_run _ _ _ _ _ _ _ _ _ _ _ _ _ m _ stk
              Ho Hk Hs Hos eq_refl Hnew Hnf Hm Hexit); [|apply lookup_insert_eq].
  f_equal. world_eq; [apply insert_insert_eq|by rewrite <- !app_assoc].
Qed.

(** X6: the first transition of a composite, away from its [Initial] or its
    history: nothing leaves the stack, the actions run, the target is entered
    and pushed. *)
Theorem transition_from_pseudo limit w self k sup ini fin hist s kp
    new_state o_new actions m stk :
  objs w !! self = Some (CompositeState k sup ini fin hist) →
  k ≠ Concurrent →
  _state w !! self = Some s →
  objs w !! s = Some (PseudoState kp self) →
  objs w !! new_state = Some o_new →
  is_final o_new = false →
  state_machine limit new_state (objs w) = Ok m →
  active_states w !! m = Some stk →
  CompositeState__transition_to limit self new_state actions w
  = (Ok tt,
     with_state <[self := new_state]>
       (with_active <[m := stk ++ [Single new_state]]>
          (with_trace
             (λ t, t ++ (map Action actions
                         ++ if is_pseudo o_new then [] else entry_trace new_state))
             w))).
Proof.
  intros Ho Hk Hs Hos Hnew Hnf Hm Hstk.
  by apply (CompositeState__transition_to_run _ _ _ k sup ini fin hist s
              (PseudoState kp self) _ o_new _ m w stk);
    try apply (exit_pseudo _ _ _ _ _ Hos).
Qed.

Lemma CompositeState_is_at_final_state_run w self k sup ini fin hist s :
  objs w !! self = Some (CompositeState k sup ini fin hist) →
  _state w !! self = Some s →
  CompositeState_is_at_final_state self w = (Ok (bool_decide (s = fin)), w).
Proof.
  intros Ho Hs. unfold CompositeState_is_at_final_state, the_final.
  rewrite (run_attr _ _ _ _ _ Hs), bind_run, (run_attr _ _ _ _ _ Ho). done.
Qed.

(** X7: a plain composite whose current child, a simple state on the top of
    the stack, moves to the composite's [Final]: the child exits and is
    popped, [Final] is not pushed, the tick event of the machine is set, and
    [is_at_final_state()] answers true. *)
Theorem transition_to_final limit w self k sup ini fin hist s actions m stk t :
  objs w !! self = Some (CompositeState k sup ini fin hist) →
  k ≠ Concurrent →
  _state w !! self = Some s →
  objs w !! s = Some (SimpleState (Some self)) →
  objs w !! fin = Some (PseudoState Final self) →
  state_machine limit s (objs w) = Ok m →
  state_machine limit fin (objs w) = Ok m →
  state_machine limit self (objs w) = Ok m →
  active_states w !! m = Some (stk ++ [Single s]) →
  _tick_event w !! m = Some t →
  let w' :=
    with_tick <[m := true]>
      (with_state <[self := fin]>
         (with_active <[m := stk]>
            (with_trace
               (λ tr, tr ++ exit_trace s ++ [Puml (p_deactivate s)]
                        ++ map Action actions)
               w))) in
  CompositeState__transition_to limit self fin actions w = (Ok tt, w') ∧
  CompositeState_is_at_final_state self w' = (Ok true, w').
Proof.
  intros Ho Hk Hs Hos Hfin Hms Hmf Hm Hstk Ht w'.
  destruct (concurrent_member_of_plain _ _ _ _ _ _ _ _ Ho Hk
              (eq_refl : _super_state (SimpleState (Some self)) = Some self))
    as [Hcm Hp].
  pose proof (State_exit_run limit w s _ m _ Hos eq_refl (ex_intro _ self eq_refl)
                Hp Hms Hstk) as Hexit.
  cbn zeta in Hexit. rewrite Hcm in Hexit.
  assert (Hpos : positioned false s (stk ++ [Single s]) = true).
  { unfold positioned. rewrite last_snoc. cbn. by apply bool_decide_eq_true_2. }
  rewrite Hpos in Hexit. rewrite <- (exit_simple _ _ _ _ Hos) in Hexit.
  assert (Hwo : stack_without s (stk ++ [Single s]) = stk).
  { unfold stack_without. by rewrite last_snoc, removelast_last. }
  rewrite Hwo in Hexit.
  split.
  - unfold CompositeState__transition_to. rewrite (run_attr _ _ _ _ _ Hs).
    erewrite run_ok;
      [|apply (transition_run _ _ _ _ _ _ (PseudoState Final self) m _ stk
                 Hos Hp Hfin Hmf Hexit); [apply lookup_insert_eq|by rewrite Hcm]].
    cbn [is_final is_pseudo id]. mrun.
    erewrite run_attr; [|apply lookup_insert_eq].
    erewrite run_attr; [|exact Hfin]. cbn [is_final].
    erewrite run_ok; [|unfold reads; cbn; by rewrite Hm].
    unfold trigger_tick. erewrite run_attr; [|exact Ht].
    subst w'. unfold modify. f_equal. world_eq.
    by rewrite app_nil_r, <- !app_assoc.
  - erewrite CompositeState_is_at_final_state_run;
      [|exact Ho|apply lookup_insert_eq].
    by rewrite bool_decide_eq_true_2.
Qed.

(** *** Exit of a composite *)

Lemma remember_or_reset_run w self k sup ini fin hist s :
  objs w !! self = Some (CompositeState k sup ini fin hist) →
  _state w !! self = Some s →
  remember_or_reset self w = (Ok tt, remembered self s ini fin hist w).
Proof.
  intros Ho Hs. unfold remember_or_reset, remembered.
  rewrite (run_attr _ _ _ _ _ Ho), (run_attr _ _ _ _ _ Hs).
  destruct hist as [h|]; [|done]. by destruct (bool_decide (s ≠ fin)).
Qed.

(** X8: the exit of a plain composite whose current child is a simple state
    on the top of the stack, with the composite right below: the child exits
    first and is popped, the current child is remembered or reset, then the
    composite exits and is popped. *)
Theorem exit_composite_with_child n w self k p po ini fin hist s m stk :
  objs w !! self = Some (CompositeState k (Some p) ini fin hist) →
  k ≠ Concurrent →
  objs w !! p = Some po →
  is_concurrent po = false →
  _state w !! self = Some s →
  objs w !! s = Some (SimpleState (Some self)) →
  state_machine n s (objs w) = Ok m →
  state_machine (S n) self (objs w) = Ok m →
  active_states w !! m = Some (stk ++ [Single self; Single s]) →
  exit (S n) self w
  = (Ok tt,
     with_active <[m := stk]>
       (with_trace
          (λ t, t ++ exit_trace s ++ [Puml (p_deactivate s)]
                  ++ exit_trace self ++ [Puml (p_deactivate self)])
          (remembered self s ini fin hist w))).
Proof.
  intros Ho Hk Hpo Hnc Hs Hos Hms Hm Hstk.
  destruct (concurrent_member_of_plain _ _ _ _ _ _ _ _ Ho Hk
              (eq_refl : _super_state (SimpleState (Some self)) = Some self))
    as [Hcm Hp].
  assert (Hstk' : active_states w !! m = Some ((stk ++ [Single self]) ++ [Single s]))
    by (by rewrite <- app_assoc).
  pose proof (State_exit_run n w s _ m _ Hos eq_refl (ex_intro _ self eq_refl)
                Hp Hms Hstk') as Hexit.
  cbn zeta in Hexit. rewrite Hcm in Hexit.
  assert (Hpos : positioned false s ((stk ++ [Single self]) ++ [Single s]) = true).
  { unfold positioned. rewrite last_snoc. cbn. by apply bool_decide_eq_true_2. }
  rewrite Hpos in Hexit. rewrite <- (exit_simple _ _ _ _ Hos) in Hexit.
  assert (Hwo : stack_without s ((stk ++ [Single self]) ++ [Single s])
                = stk ++ [Single self]).
  { unfold stack_without. by rewrite last_snoc, removelast_last. }
  rewrite Hwo in Hexit.
  cbn [exit]. rewrite (run_attr _ _ _ _ _ Ho).
  assert (CompositeState_exit (exit n) (S n) self w
          = (Ok tt,
             with_active <[m := stk]>
               (with_trace
                  (λ t, t ++ exit_trace s ++ [Puml (p_deactivate s)]
                          ++ exit_trace self ++ [Puml (p_deactivate self)])
                  (remembered self s ini fin hist w)))) as Hgoal;
    [|by destruct k].
  unfold CompositeState_exit. rewrite (run_attr _ _ _ _ _ Hs).
  rewrite (run_ok _ _ _ _ _ Hexit).
  set (w1 := with_trace _ (with_active _ (with_trace _ w))).
  erewrite run_ok; [|by apply (remember_or_reset_run w1 self k (Some p) ini fin hist s)].
  set (w2 := remembered self s ini fin hist w1).
  assert (Hobjs2 : objs w2 = objs w).
  { subst w2. unfold remembered. destruct hist; [destruct (bool_decide _)|]; done. }
  assert (Hact2 : active_states w2 !! m = Some (stk ++ [Single self])).
  { subst w2. unfold remembered.
    destruct hist; [destruct (bool_decide _)|]; apply lookup_insert_eq. }
  assert (Hcm2 : concurrent_member (objs w2) (CompositeState k (Some p) ini fin hist)
                 = false).
  { unfold concurrent_member. cbn [_super_state]. by rewrite Hobjs2, Hpo. }
  erewrite State_exit_run;
    [|by rewrite Hobjs2|done|by eexists| |by rewrite Hobjs2|exact Hact2].
  2:{ intros q [= <-]. rewrite Hobjs2. eauto. }
  cbn zeta. rewrite Hcm2.
  assert (Hpos2 : positioned false self (stk ++ [Single self]) = true).
  { unfold positioned. rewrite last_snoc. cbn. by apply bool_decide_eq_true_2. }
  rewrite Hpos2.
  assert (Hwo2 : stack_without self (stk ++ [Single self]) = stk).
  { unfold stack_without. by rewrite last_snoc, removelast_last. }
  rewrite Hwo2. f_equal. subst w2 w1. unfold remembered.
  destruct hist as [h|]; [destruct (bool_decide (s ≠ fin))|];
    (world_eq; [by rewrite !insert_insert_eq|by rewrite <- !app_assoc]).
Qed.

(** X9: once the exit of a plain composite has completed, its current child
    is its history (when it has one and was not at its [Final]) or its
    [Initial], so that [is_at_final_state()] answers false: a completion does
    not outlast the exit. *)
Theorem exit_resets_completion limit w self k sup ini fin hist s w' :
  well_ordered w →
  objs w !! self = Some (CompositeState k sup ini fin hist) →
  k ≠ Concurrent →
  _state w !! self = Some s →
  exit limit self w = (Ok tt, w') →
  _state w' !! self
  = Some (match hist with
          | Some h => if bool_decide (s ≠ fin) then h else ini
          | None => ini
          end) ∧
  (ini ≠ fin → (∀ h, hist = Some h → h ≠ fin) →
   CompositeState_is_at_final_state self w' = (Ok false, w')).
Proof.
  intros Hwo Ho Hk Hs H.
  destruct (CompositeState_exit_inv _ _ _ _ _ _ _ _ _ _ Hwo Ho Hk Hs H)
    as (w1 & w2 & Hs1 & Hobjs & Hrem & Hfr).
  rewrite <- Hobjs in Ho.
  rewrite (remember_or_reset_run _ _ _ _ _ _ _ _ Ho Hs1) in Hrem.
  injection Hrem as <-.
  destruct Hfr as (Hobjs' & Hst & _).
  assert (Hnew : _state w' !! self
    = Some (match hist with
            | Some h => if bool_decide (s ≠ fin) then h else ini
            | None => ini
            end)).
  { rewrite Hst. unfold remembered.
    destruct hist as [h|]; [destruct (bool_decide (s ≠ fin))|];
      apply lookup_insert_eq. }
  split; [exact Hnew|]. intros Hini Hh.
  assert (Ho' : objs w' !! self = Some (CompositeState k sup ini fin hist)).
  { rewrite Hobjs'. unfold remembered.
    destruct hist as [h|]; [destruct (bool_decide (s ≠ fin))|]; exact Ho. }
  rewrite (CompositeState_is_at_final_state_run _ _ _ _ _ _ _ _ Ho' Hnew).
  rewrite bool_decide_eq_false_2; [done|].
  destruct hist as [h|]; [destruct (bool_decide (s ≠ fin))|]; eauto.
Qed.

(** *** The order of construction *)

Lemma transition_below limit self new_state actions :
  preserves (T:=T) (below_frame self) (transition limit self new_state actions).
Proof.
  unfold transition. apply preserves_bind; [apply _|apply exit_below|intros _].
  eapply preserves_weaken; [intros ? ?; apply only_stack_and_trace_below|].
  pose proof (run_actions_preserves (@only_stack_and_trace T) ltac:(by intros)).
  pose proof (activate_preserves (@only_stack_and_trace T) ltac:(by intros)).
  pose proof (activate_concurrent_state_preserves (@only_stack_and_trace T)
                ltac:(by intros)).
  pose proof (super_is_concurrent_preserves (@only_stack_and_trace T)).
  unfold entry. preserves_tac; by intros.
Qed.

Lemma tick_below limit self :
  preserves (T:=T) (below_frame 0)
    (m ← reads (λ w, state_machine limit self (objs w)); trigger_tick m).
Proof.
  unfold trigger_tick. preserves_tac. by intros ?.
Qed.

(** X10: the order of construction is an invariant of the exits and of the
    transitions to a target built after the composite, whether they complete
    or raise. *)
Theorem well_ordered_kept limit w :
  well_ordered w →
  (∀ self r w', exit limit self w = (r, w') → well_ordered w') ∧
  (∀ self new_state actions r w',
     self < new_state →
     CompositeState__transition_to limit self new_state actions w = (r, w') →
     well_ordered w') ∧
  (∀ self new_state i actions r w',
     self < new_state →
     ConcurrentCompositeState__transition_to limit self new_state i actions w
     = (r, w') →
     well_ordered w').
Proof.
  intros Hwo. split; [|split].
  - intros self r w' H. by destruct (exit_below _ _ _ _ _ H Hwo).
  - intros self new_state actions r w' Hlt H.
    assert (below_frame 0 w w') as Hfr; [|by destruct (Hfr Hwo)].
    revert r w' H. unfold CompositeState__transition_to.
    apply attr_below. intros s Hs _.
    apply bind_below.
    { eapply preserves_preserves_at, preserves_weaken; [|apply transition_below].
      intros ? ?. apply below_frame_mono. lia. }
    intros r w1 Htr _ Hwo1.
    pose proof (transition_returns _ _ _ _ _ _ _ Htr) as ->.
    apply bind_below.
    { intros r w' H. injection H as _ <-.
      eapply below_frame_mono; [|by apply modify_state_below]. lia. }
    intros [] w2 _ _ _. apply attr_below. intros s' _ _.
    apply attr_below. intros o _ _.
    destruct (is_final o).
    + apply preserves_preserves_at, tick_below.
    + apply preserves_preserves_at, preserves_ret, _.
  - intros self new_state i actions r w' Hlt H.
    assert (below_frame 0 w w') as Hfr; [|by destruct (Hfr Hwo)].
    revert r w' H. unfold ConcurrentCompositeState__transition_to.
    apply attr_below. intros l Hl _.
    destruct (l !! i) as [s|]; [|apply preserves_preserves_at, preserves_raise, _].
    apply bind_below.
    { eapply preserves_preserves_at, preserves_weaken; [|apply transition_below].
      intros ? ?. apply below_frame_mono. lia. }
    intros r w1 Htr _ Hwo1.
    pose proof (transition_returns _ _ _ _ _ _ _ Htr) as ->.
    apply attr_below. intros l1 Hl1 _.
    intros r w' H. injection H as _ <-.
    eapply below_frame_mono; [|by apply modify_states_below]. lia.
Qed.


(** *** Frames that follow the order of construction *)

Section ordered_frames.
Context (F : ref → relation (World T)) {F_preorder : ∀ s, PreOrder (F s)}.
Hypothesis F_guarded : ∀ s w w', (well_ordered w → F s w w') → F s w w'.
Hypothesis F_well_ordered : ∀ s w w', F s w w' → well_ordered w → well_ordered w'.
Hypothesis F_mono : ∀ s s' w w', s ≤ s' → F s' w w' → F s w w'.
Hypothesis F_stack_trace : ∀ s w w', only_stack_and_trace w w' → F s w w'.
Hypothesis F_state : ∀ self x w, self < x → F self w (with_state <[self := x]> w).
Hypothesis F_states :
  ∀ self l i x w, _states w !! self = Some l → self < x →
                  F self w (with_states <[self := <[i := x]> l]> w).
Hypothesis F_return : ∀ s f w, F s w (with_return f w).
Hypothesis F_returns :
  ∀ s h rs i x w, states_to_return_to w !! h = Some rs →
                  F s w (with_returns <[h := <[i := x]> rs]> w).

Lemma bind_ordered {A B} (c : M T A) (k : A → M T B) s w :
  preserves_at (F s) c w →
  (∀ a w1, c w = (Ok a, w1) → well_ordered w → well_ordered w1 →
           preserves_at (F s) (k a) w1) →
  preserves_at (F s) (c ≫= k) w.
Proof.
  intros Hc Hk r w' H.
  apply bind_inv in H as [(a & w1 & H1 & H2)|(e & H1 & _)].
  - pose proof (Hc _ _ H1) as H01. apply F_guarded. intros Hwo.
    pose proof (F_well_ordered _ _ _ H01 Hwo) as Hwo1.
    pose proof (Hk a w1 H1 Hwo Hwo1 _ _ H2) as H12. by etransitivity.
  - eapply Hc; eauto.
Qed.

Lemma attr_ordered {A B} (f : World T → gmap ref A) x (k : A → M T B) s w :
  (∀ a, f w !! x = Some a → well_ordered w → preserves_at (F s) (k a) w) →
  preserves_at (F s) (attr f x ≫= k) w.
Proof.
  intros Hk. apply bind_ordered.
  - apply preserves_preserves_at, preserves_attr, _.
  - intros a w1 Ha Hwo _. apply attr_inv in Ha as [Ha ->]. by apply Hk.
Qed.

Lemma State_exit_ordered limit self s : preserves (F s) (State_exit limit self).
Proof.
  eapply preserves_weaken; [|apply State_exit_only_stack_and_trace].
  intros; by apply F_stack_trace.
Qed.

Lemma remember_or_reset_ordered self : preserves (F self) (remember_or_reset self).
Proof.
  intros w. unfold remember_or_reset. apply attr_ordered. intros o Ho Hwo.
  destruct o as [| |k sup ini fin hist];
    try (apply preserves_preserves_at, preserves_raise, _).
  destruct Hwo as (Hwo1 & _). pose proof (Hwo1 _ _ Ho) as (Hini & Hfin & Hh).
  apply attr_ordered. intros s Hs Hwo.
  assert (Hreset : preserves_at (F self) (modify (with_state <[self:=ini]>)) w).
  { intros r w' H. injection H as _ <-. by apply F_state. }
  destruct hist as [h|]; [|exact Hreset].
  destruct (bool_decide (s ≠ fin)); [|exact Hreset].
  intros r w' H. rewrite run_modify in H. injection H as _ <-.
  etransitivity; [apply F_return|apply F_state, Hh].
Qed.

Lemma exit_regions_ordered (exit : ref → M T unit) self i n :
  (∀ s, preserves (F s) (exit s)) →
  preserves (F self) (exit_regions exit self i n).
Proof.
  intros Hexit. revert i. induction n as [|n IH]; intros i w; cbn [exit_regions].
  - apply preserves_ret, _.
  - apply attr_ordered. intros l Hl Hwo.
    destruct (l !! i) as [s|] eqn:Hi; [|apply preserves_preserves_at, preserves_ret, _].
    assert (self < s) as Hlt.
    { destruct Hwo as (_ & _ & Hwo3). pose proof (Hwo3 _ _ Hl) as Hall.
      rewrite Forall_lookup in Hall. by apply (Hall i). }
    apply preserves_preserves_at, preserves_bind; [apply _| |intros; apply IH].
    eapply preserves_weaken; [|apply Hexit]. intros ? ?. apply F_mono. lia.
Qed.

Lemma exit_regions_ordered_strict (exit : ref → M T unit) self i n :
  (∀ s, preserves (F s) (exit s)) →
  preserves (F (S self)) (exit_regions exit self i n).
Proof.
  intros Hexit. revert i. induction n as [|n IH]; intros i w; cbn [exit_regions].
  - apply preserves_ret, _.
  - apply attr_ordered. intros l Hl Hwo.
    destruct (l !! i) as [s|] eqn:Hi; [|apply preserves_preserves_at, preserves_ret, _].
    assert (self < s) as Hlt.
    { destruct Hwo as (_ & _ & Hwo3). pose proof (Hwo3 _ _ Hl) as Hall.
      rewrite Forall_lookup in Hall. by apply (Hall i). }
    apply preserves_preserves_at, preserves_bind; [apply _| |intros; apply IH].
    eapply preserves_weaken; [|apply Hexit]. intros ? ?. apply F_mono. lia.
Qed.

Lemma remember_regions_ordered self h i n :
  self < h → preserves (F self) (remember_regions self h i n).
Proof.
  intros Hlt. revert i. induction n as [|n IH]; intros i w; cbn [remember_regions].
  - apply preserves_ret, _.
  - apply attr_ordered. intros l Hl Hwo.
    destruct (l !! i) as [s|] eqn:Hi; [|apply preserves_preserves_at, preserves_ret, _].
    apply attr_ordered. intros rs Hrs _.
    apply bind_ordered.
    { destruct (bool_decide (i < length rs)); intros r w' H; injection H as _ <-.
      - by apply F_returns.
      - reflexivity. }
    intros [] w1 _ _ Hwo1. apply attr_ordered. intros l1 Hl1 _.
    apply bind_ordered.
    { intros r w' H. injection H as _ <-. by apply F_states. }
    intros [] w2 _ _ _. apply preserves_preserves_at, IH.
Qed.

Lemma reset_regions_ordered self ini i n :
  self < ini → preserves (F self) (reset_regions self ini i n).
Proof.
  intros Hlt. revert i. induction n as [|n IH]; intros i w; cbn [reset_regions].
  - apply preserves_ret, _.
  - apply attr_ordered. intros l Hl Hwo.
    destruct (l !! i) as [s|] eqn:Hi; [|apply preserves_preserves_at, preserves_ret, _].
    apply bind_ordered.
    { intros r w' H. injection H as _ <-. by apply F_states. }
    intros [] w2 _ _ _. apply preserves_preserves_at, IH.
Qed.

Lemma exit_ordered limit self : preserves (F self) (exit limit self).
Proof.
  revert self. induction limit as [|n IH]; intros self w; cbn [exit];
    apply attr_ordered; intros o Ho Hwo;
    (destruct o as [| |k sup ini fin hist];
      [apply preserves_preserves_at, State_exit_ordered
      |apply preserves_preserves_at, State_exit_ordered|]).
  - apply preserves_preserves_at, preserves_raise, _.
  - pose proof (proj1 Hwo _ _ Ho) as (Hini & Hfin & Hh).
    assert (Hplain : preserves_at (F self)
              (CompositeState_exit (exit n) (S n) self) w).
    { unfold CompositeState_exit. apply attr_ordered. intros s Hs Hwo'.
      assert (self < s) as Hlt by (by apply (proj1 (proj2 Hwo') _ _ Hs)).
      apply preserves_preserves_at, preserves_bind; [apply _| |intros _].
      - eapply preserves_weaken; [|apply IH]. intros ? ?. apply F_mono. lia.
      - apply preserves_bind; [apply _|apply remember_or_reset_ordered|intros _].
        apply State_exit_ordered. }
    destruct k; [exact Hplain|exact Hplain|].
    unfold ConcurrentCompositeState_exit. apply attr_ordered. intros l Hl _.
    apply bind_ordered; [apply preserves_preserves_at, exit_regions_ordered, IH|].
    intros [] w1 _ _ Hwo1. apply attr_ordered. intros o1 Ho1 _.
    apply preserves_preserves_at, preserves_bind;
      [apply _| |intros _; apply State_exit_ordered].
    destruct o1 as [| |k1 sup1 ini1 fin1 hist1]; try (apply preserves_raise, _).
    pose proof (proj1 Hwo1 _ _ Ho1) as (Hini1 & Hfin1 & Hh1).
    apply preserves_bind; [apply _|apply preserves_attr, _|intros l1].
    destruct hist1 as [h1|]; [|by apply reset_regions_ordered].
    destruct (existsb _ l1);
      [by apply remember_regions_ordered|by apply reset_regions_ordered].
Qed.

Lemma transition_ordered limit self new_state actions :
  preserves (F self) (transition limit self new_state actions).
Proof.
  unfold transition. apply preserves_bind; [apply _|apply exit_ordered|intros _].
  eapply preserves_weaken; [intros ? ?; apply F_stack_trace|].
  pose proof (run_actions_preserves (@only_stack_and_trace T) ltac:(by intros)).
  pose proof (activate_preserves (@only_stack_and_trace T) ltac:(by intros)).
  pose proof (activate_concurrent_state_preserves (@only_stack_and_trace T)
                ltac:(by intros)).
  pose proof (super_is_concurrent_preserves (@only_stack_and_trace T)).
  unfold entry. preserves_tac; by intros.
Qed.
End ordered_frames.

#[local] Instance regions_frame_preorder s : PreOrder (regions_frame (T:=T) s).
Proof.
  split.
  - intros w Hwo. done.
  - intros w1 w2 w3 H12 H23 Hwo.
    destruct (H12 Hwo) as (Hwo2 & Ho2 & Hs2 & Hl2).
    destruct (H23 Hwo2) as (Hwo3 & Ho3 & Hs3 & Hl3).
    split; [done|]. split; [congruence|]. split.
    + intros c Hc. by rewrite Hs3, Hs2.
    + intros h. by rewrite Hl3, Hl2.
Qed.

Lemma regions_frame_guarded s w w' :
  (well_ordered w → regions_frame s w w') → regions_frame (T:=T) s w w'.
Proof. intros H Hwo. by apply H. Qed.

Lemma regions_frame_well_ordered s w w' :
  regions_frame (T:=T) s w w' → well_ordered w → well_ordered w'.
Proof. intros H Hwo. by destruct (H Hwo). Qed.

Lemma regions_frame_mono s s' w w' :
  s ≤ s' → regions_frame (T:=T) s' w w' → regions_frame s w w'.
Proof.
  intros Hle H Hwo. destruct (H Hwo) as (? & ? & Hs & ?).
  split; [done|]. split; [done|]. split; [|done].
  intros c Hc. apply Hs. lia.
Qed.

Lemma regions_frame_stack_trace s w w' :
  only_stack_and_trace w w' → regions_frame (T:=T) s w w'.
Proof.
  intros (Ho & Hs & Hss & _ & Hrs & _) (Hwo1 & Hwo2 & Hwo3).
  unfold well_ordered. rewrite Ho, Hs, Hss, Hrs. done.
Qed.

Lemma regions_frame_state self x w :
  self < x → regions_frame (T:=T) self w (with_state <[self := x]> w).
Proof.
  intros Hlt (Hwo1 & Hwo2 & Hwo3). split; [|done].
  split; [done|]. split; [|done]. cbn. by apply map_Forall_insert_2.
Qed.

Lemma regions_frame_states self l i x w :
  _states w !! self = Some l → self < x →
  regions_frame (T:=T) self w (with_states <[self := <[i := x]> l]> w).
Proof.
  intros Hl Hlt (Hwo1 & Hwo2 & Hwo3). split; [|split; [done|split]].
  - split; [done|]. split; [done|]. cbn. apply map_Forall_insert_2; [|done].
    apply Forall_insert; [|done]. by apply (Hwo3 _ _ Hl).
  - intros c Hc. cbn. apply lookup_insert_ne. lia.
  - done.
Qed.

Lemma regions_frame_return s f w : regions_frame (T:=T) s w (with_return f w).
Proof. intros Hwo. done. Qed.

Lemma regions_frame_returns s h rs i x w :
  states_to_return_to w !! h = Some rs →
  regions_frame (T:=T) s w (with_returns <[h := <[i := x]> rs]> w).
Proof.
  intros Hrs Hwo. split; [done|]. split; [done|]. split; [done|].
  intros h'. cbn. destruct (decide (h = h')) as [<-|Hne].
  - rewrite lookup_insert_eq, Hrs. cbn. by rewrite length_insert.
  - by rewrite lookup_insert_ne.
Qed.

Lemma exit_regions_frame limit self :
  preserves (T:=T) (regions_frame self) (exit limit self).
Proof.
  apply (exit_ordered regions_frame);
    eauto using regions_frame_guarded, regions_frame_well_ordered,
      regions_frame_mono, regions_frame_stack_trace, regions_frame_state,
      regions_frame_states, regions_frame_return, regions_frame_returns.
Qed.

Lemma transition_regions_frame limit self new_state actions :
  preserves (T:=T) (regions_frame self) (transition limit self new_state actions).
Proof.
  apply (transition_ordered regions_frame);
    eauto using regions_frame_guarded, regions_frame_well_ordered,
      regions_frame_mono, regions_frame_stack_trace, regions_frame_state,
      regions_frame_states, regions_frame_return, regions_frame_returns.
Qed.

Lemma exit_regions_regions_frame limit self i n :
  preserves (T:=T) (regions_frame (S self))
    (exit_regions (exit limit) self i n).
Proof.
  apply (exit_regions_ordered_strict regions_frame);
    eauto using regions_frame_guarded, regions_frame_well_ordered,
      regions_frame_mono, exit_regions_frame.
Qed.

(** *** Concurrent composites *)

(** X12: [_transition_to] of a concurrent composite with an index beyond the
    regions raises [IndexError] and changes nothing; when it completes, the
    slot of that region holds the target and the other slots are as they
    were, and the tick event is as it was, also when the target is [Final]. *)
Theorem concurrent_transition_to_post limit w self (l : list ref) i new_state actions :
  well_ordered w →
  _states w !! self = Some l →
  (length l ≤ i →
   ConcurrentCompositeState__transition_to limit self new_state i actions w
   = (Raise IndexError, w)) ∧
  (∀ w',
     ConcurrentCompositeState__transition_to limit self new_state i actions w
     = (Ok tt, w') →
     i < length l ∧
     _states w' !! self = Some (<[i := new_state]> l) ∧
     _tick_event w' = _tick_event w).
Proof.
  intros Hwo Hl. unfold ConcurrentCompositeState__transition_to.
  rewrite (run_attr _ _ _ _ _ Hl). split.
  - intros Hi. by rewrite (lookup_ge_None_2 _ _ Hi).
  - intros w' H. destruct (l !! i) as [s|] eqn:Hs; [|done].
    pose proof (lookup_lt_Some _ _ _ Hs) as Hlt. split; [done|].
    apply bind_inv_ok in H as (r & w1 & Htr & H).
    pose proof (transition_returns _ _ _ _ _ _ _ Htr) as ->.
    destruct (transition_transition_frame _ _ _ _ _ _ _ Htr) as (_ & Htick & _).
    assert (self < s) as Hss.
    { destruct Hwo as (_ & _ & Hwo3). pose proof (Hwo3 _ _ Hl) as Hall.
      rewrite Forall_lookup in Hall. by apply (Hall i). }
    destruct (transition_regions_frame _ _ _ _ _ _ _ Htr Hwo) as (_ & _ & Hfr & _).
    assert (Hl1 : _states w1 !! self = Some l) by (by rewrite Hfr).
    rewrite (run_attr _ _ _ _ _ Hl1) in H. injection H as <-.
    split; [apply lookup_insert_eq|exact Htick].
Qed.

Lemma remember_regions_run self h n :
  ∀ i w (l : list ref) rs,
    _states w !! self = Some l →
    states_to_return_to w !! h = Some rs →
    length rs = length l →
    i + n = length l →
    remember_regions self h i n w
    = (Ok tt,
       with_returns <[h := take i rs ++ (Some <$> drop i l)]>
         (with_states <[self := take i l ++ replicate n h]> w)).
Proof.
  induction n as [|n IH]; intros i w l rs Hl Hrs Hlen Hin; cbn [remember_regions].
  - f_equal. symmetry. world_eq.
    + rewrite app_nil_r, take_ge by lia. by apply insert_id.
    + rewrite drop_ge, app_nil_r, take_ge by lia. by apply insert_id.
  - rewrite (run_attr _ _ _ _ _ Hl).
    destruct (lookup_lt_is_Some_2 l i ltac:(lia)) as [s Hs]. rewrite Hs.
    rewrite (run_attr _ _ _ _ _ Hrs).
    rewrite bool_decide_eq_true_2 by lia. mrun.
    erewrite run_attr; [|exact Hl]. mrun.
    erewrite IH; [|apply lookup_insert_eq|apply lookup_insert_eq
                  |by rewrite !length_insert|rewrite length_insert; lia].
    f_equal. world_eq.
    + rewrite insert_insert_eq. f_equal.
      rewrite (take_S_r _ _ h) by (apply list_lookup_insert_eq; lia).
      rewrite take_insert_ge by lia. by rewrite <- app_assoc.
    + rewrite insert_insert_eq. f_equal.
      rewrite (take_S_r _ _ (Some s)) by (apply list_lookup_insert_eq; lia).
      rewrite take_insert_ge by lia. rewrite drop_insert_lt by lia.
      rewrite (drop_S l s i Hs). by rewrite <- app_assoc.
Qed.

Lemma reset_regions_run self ini n :
  ∀ i w (l : list ref),
    _states w !! self = Some l →
    i + n = length l →
    reset_regions self ini i n w
    = (Ok tt, with_states <[self := take i l ++ replicate n ini]> w).
Proof.
  induction n as [|n IH]; intros i w l Hl Hin; cbn [reset_regions].
  - f_equal. symmetry. world_eq.
    rewrite app_nil_r, take_ge by lia. by apply insert_id.
  - rewrite (run_attr _ _ _ _ _ Hl).
    destruct (lookup_lt_is_Some_2 l i ltac:(lia)) as [s Hs]. rewrite Hs. mrun.
    erewrite IH; [|apply lookup_insert_eq|rewrite length_insert; lia].
    f_equal. world_eq.
    rewrite insert_insert_eq. f_equal.
    rewrite (take_S_r _ _ ini) by (apply list_lookup_insert_eq; lia).
    rewrite take_insert_ge by lia. by rewrite <- app_assoc.
Qed.

(** X13: once the exit of a concurrent composite has completed, every region
    has its history as current child and the history remembers, region by
    region, the children that were current, when there is a history and some
    region was not at [Final]; otherwise every region is back at [Initial]. *)
Theorem concurrent_exit_post limit w self sup ini fin hist (l : list ref) w' :
  well_ordered w →
  objs w !! self = Some (CompositeState Concurrent sup ini fin hist) →
  _states w !! self = Some l →
  (∀ h, hist = Some h →
        ∃ rs, states_to_return_to w !! h = Some rs ∧ length rs = length l) →
  exit limit self w = (Ok tt, w') →
  match hist with
  | Some h =>
      if existsb (λ s, bool_decide (s ≠ fin)) l
      then _states w' !! self = Some (replicate (length l) h) ∧
           states_to_return_to w' !! h = Some (Some <$> l)
      else _states w' !! self = Some (replicate (length l) ini)
  | None => _states w' !! self = Some (replicate (length l) ini)
  end.
Proof.
  intros Hwo Ho Hl Hrs H.
  destruct limit as [|n]; cbn [exit] in H; rewrite (run_attr _ _ _ _ _ Ho) in H;
    [done|].
  unfold ConcurrentCompositeState_exit in H.
  rewrite (run_attr _ _ _ _ _ Hl) in H.
  apply bind_inv_ok in H as ([] & w1 & Hloop & H).
  destruct (exit_regions_regions_frame _ _ _ _ _ _ _ Hloop Hwo)
    as (Hwo1 & Hobjs & Hfr & Hlens).
  assert (Hl1 : _states w1 !! self = Some l) by (rewrite Hfr; [done|lia]).
  rewrite <- Hobjs in Ho. rewrite (run_attr _ _ _ _ _ Ho) in H.
  apply bind_inv_ok in H as ([] & w2 & Hupd & H).
  rewrite (run_attr _ _ _ _ _ Hl1) in Hupd.
  destruct (State_exit_only_stack_and_trace _ _ _ _ _ H)
    as (_ & _ & Hss & _ & Hrets & _).
  rewrite Hss, Hrets.
  assert (Hreset : reset_regions self ini 0 (length l) w1 = (Ok (), w2) →
                   _states w2 !! self = Some (replicate (length l) ini)).
  { intros Hr. rewrite (reset_regions_run self ini (length l) 0 w1 l Hl1 eq_refl) in Hr.
    injection Hr as <-. apply lookup_insert_eq. }
  destruct hist as [h|]; [|by apply Hreset].
  destruct (existsb _ l); [|by apply Hreset].
  destruct (Hrs h eq_refl) as (rs & Hrs0 & Hlen).
  pose proof (Hlens h) as Hlen1. rewrite Hrs0 in Hlen1.
  destruct (states_to_return_to w1 !! h) as [rs1|] eqn:Hrs1; [|done].
  injection Hlen1 as Hlen1.
  rewrite (remember_regions_run self h (length l) 0 w1 l rs1 Hl1 Hrs1 ltac:(lia) eq_refl)
    in Hupd.
  injection Hupd as <-. split; apply lookup_insert_eq.
Qed.

Lemma ConcurrentCompositeState__transition_to_run limit w self sup ini fin hist
    (l : list ref) i s o_s new_state o_new actions m w1 stk :
  objs w !! self = Some (CompositeState Concurrent sup ini fin hist) →
  _states w !! self = Some l →
  l !! i = Some s →
  objs w !! s = Some o_s →
  _super_state o_s = Some self →
  objs w !! new_state = Some o_new →
  state_machine limit new_state (objs w) = Ok m →
  exit limit s w = (Ok tt, w1) →
  _states w1 !! self = Some l →
  active_states w1 !! m = Some stk →
  stk ≠ [] →
  ConcurrentCompositeState__transition_to limit self new_state i actions w
  = (Ok tt,
     with_states <[self := <[i := new_state]> l]>
       ((if is_final o_new then id
         else with_active <[m := activated true new_state stk]>)
          (with_trace
             (λ t, t ++ (map Action actions
                         ++ if is_pseudo o_new then [] else entry_trace new_state))
             w1))).
Proof.
  intros Ho Hl Hi Hos Hsup Hnew Hm Hexit Hl1 Hstk Hne.
  assert (Hcm : concurrent_member (objs w) o_s = true)
    by (unfold concurrent_member; by rewrite Hsup, Ho).
  assert (Hp : ∀ p, _super_state o_s = Some p → is_Some (objs w !! p)).
  { intros p Hp. rewrite Hsup in Hp. injection Hp as <-. eauto. }
  unfold ConcurrentCompositeState__transition_to.
  rewrite (run_attr _ _ _ _ _ Hl), Hi.
  erewrite run_ok;
    [|by apply (transition_run _ _ _ _ _ o_s o_new m w1 stk)].
  rewrite Hcm. erewrite run_attr; [reflexivity|].
  by destruct (is_final o_new).
Qed.

(** X14: [_handle_history] of a concurrent composite for one region.  An
    index beyond the return states raises [IndexError], an empty return state
    fails the assertion, and nothing changes; otherwise the region, which is
    at a pseudo-state, moves to the remembered child: only the entry of that
    child runs, it joins the set on the top of the stack, it becomes the
    current child of the region and its return state is emptied, the other
    regions are as they were. *)
Theorem concurrent_handle_history limit w self sup ini fin h (l : list ref)
    (rs : list (option ref)) i :
  objs w !! self = Some (CompositeState Concurrent sup ini fin (Some h)) →
  _states w !! self = Some l →
  states_to_return_to w !! h = Some rs →
  (rs !! i = None →
   ConcurrentCompositeState__handle_history limit self i w
   = (Raise IndexError, w)) ∧
  (rs !! i = Some None →
   ConcurrentCompositeState__handle_history limit self i w
   = (Raise (AssertionError no_state_to_return_to), w)) ∧
  (∀ t o_t s kp m stk,
     rs !! i = Some (Some t) →
     l !! i = Some s →
     objs w !! s = Some (PseudoState kp self) →
     objs w !! t = Some o_t →
     state_machine limit t (objs w) = Ok m →
     active_states w !! m = Some stk →
     stk ≠ [] →
     ConcurrentCompositeState__handle_history limit self i w
     = (Ok tt,
        with_returns <[h := <[i := None]> rs]>
          (with_states <[self := <[i := t]> l]>
             ((if is_final o_t then id
               else with_active <[m := activated true t stk]>)
                (with_trace
                   (λ tr, tr ++ if is_pseudo o_t then [] else entry_trace t)
                   w))))).
Proof.
  intros Ho Hl Hrs. unfold ConcurrentCompositeState__handle_history.
  rewrite (run_ok _ _ _ _ _ (the_history_run _ _ _ _ _ _ _ Ho)).
  rewrite (run_attr _ _ _ _ _ Hrs). split; [|split].
  - by intros ->.
  - by intros ->.
  - intros t o_t s kp m stk Hi Hs Hos Ht Hm Hstk Hne. rewrite Hi.
    erewrite run_ok;
      [|by apply (ConcurrentCompositeState__transition_to_run _ _ _ sup ini fin
                    (Some h) l i s (PseudoState kp self) t o_t [] m w stk);
        try apply (exit_pseudo _ _ _ _ _ Hos)].
    erewrite run_attr; [|by destruct (is_final o_t)].
    unfold modify. by destruct (is_final o_t).
Qed.

(** X15: [_transition_to] of a concurrent composite for a region whose
    current child is a simple state in the set on the top of the stack
    completes: the child exits and leaves the set, the actions run, the
    target is entered (unless a pseudo-state) and, unless it is a [Final],
    put into the set on the top, a fresh one when the child was the last
    member; the slot of the region holds the target. *)
Theorem region_member_moves limit w self sup ini fin hist (l : list ref) i s
    new_state o_new actions m stk ss :
  objs w !! self = Some (CompositeState Concurrent sup ini fin hist) →
  _states w !! self = Some l →
  l !! i = Some s →
  objs w !! s = Some (SimpleState (Some self)) →
  objs w !! new_state = Some o_new →
  state_machine limit s (objs w) = Ok m →
  state_machine limit new_state (objs w) = Ok m →
  active_states w !! m = Some (stk ++ [Region ss]) →
  s ∈ ss →
  stk ≠ [] →
  let stk1 := stack_without s (stk ++ [Region ss]) in
  ConcurrentCompositeState__transition_to limit self new_state i actions w
  = (Ok tt,
     with_states <[self := <[i := new_state]> l]>
       (with_active
          <[m := if is_final o_new then stk1 else activated true new_state stk1]>
          (with_trace
             (λ t, t ++ exit_trace s ++ [Puml (p_deactivate s)]
                     ++ map Action actions
                     ++ if is_pseudo o_new then [] else entry_trace new_state)
             w))).
Proof.
  intros Ho Hl Hi Hos Hnew Hms Hm Hstk Hin Hne stk1.
  assert (Hcm : concurrent_member (objs w) (SimpleState (Some self)) = true)
    by (unfold concurrent_member; cbn [_super_state]; by rewrite Ho).
  assert (Hp : ∀ p, _super_state (SimpleState (Some self)) = Some p →
                    is_Some (objs w !! p)).
  { intros p [= <-]. eauto. }
  pose proof (State_exit_run limit w s _ m _ Hos eq_refl (ex_intro _ self eq_refl)
                Hp Hms Hstk) as Hexit.
  cbn zeta in Hexit. rewrite Hcm in Hexit.
  assert (Hpos : positioned true s (stk ++ [Region ss]) = true).
  { unfold positioned. rewrite last_snoc. cbn. by apply bool_decide_eq_true_2. }
  rewrite Hpos in Hexit. rewrite <- (exit_simple _ _ _ _ Hos) in Hexit.
  fold stk1 in Hexit.
  assert (Hne1 : stk1 ≠ []).
  { subst stk1. unfold stack_without. rewrite last_snoc, removelast_last.
    destruct (decide _); [done|]. by destruct stk. }
  erewrite (ConcurrentCompositeState__transition_to_run _ _ _ sup ini fin hist l i s
              _ new_state o_new actions m _ stk1 Ho Hl Hi Hos eq_refl Hnew Hm Hexit);
    [|done|apply lookup_insert_eq|done].
  f_equal. destruct (is_final o_new); unfold id; world_eq;
    rewrite ?insert_insert_eq, <- ?app_assoc; reflexivity.
Qed.

(** *** Composites as they are built *)

(** X16: [is_at_final_state()] of a composite as it is built: false for a
    plain composite, and for a concurrent one true exactly when it has no
    region. *)
Theorem fresh_is_at_final_state w :
  (∀ k sup has_history,
     ∃ self w',
       CompositeState__init__ k sup has_history w = (Ok self, w') ∧
       CompositeState_is_at_final_state self w' = (Ok false, w')) ∧
  (∀ N sup has_history,
     ∃ self w',
       ConcurrentCompositeState__init__ N sup has_history w = (Ok self, w') ∧
       ConcurrentCompositeState_is_at_final_state self w'
       = (Ok (bool_decide (N ≤ 0)%Z), w')).
Proof.
  split.
  - intros k sup has_history.
    destruct has_history; (do 2 eexists; split; [reflexivity|]);
      (erewrite CompositeState_is_at_final_state_run;
         [|apply lookup_insert_eq|apply lookup_insert_eq]);
      (rewrite bool_decide_eq_false_2; [done|cbn; lia]).
  - intros N sup has_history.
    destruct has_history; (do 2 eexists; split; [reflexivity|]);
      unfold ConcurrentCompositeState_is_at_final_state, the_final;
      (erewrite run_attr; [|apply lookup_insert_eq]);
      (destruct (Z.to_nat N) eqn:HN; cbn [replicate];
       [rewrite bool_decide_eq_true_2 by lia; done|]);
      rewrite bind_run; (erewrite run_attr; [|apply lookup_insert_eq]);
      unfold ret; cbn beta iota; cbn [forallb];
      (rewrite (bool_decide_eq_false_2 (N ≤ 0)%Z) by lia);
      (rewrite bool_decide_eq_false_2 by (cbn; lia)); done.
Qed.

(** X17: [_handle_history] has nothing to return to in a composite as it is
    built, and changes nothing.  Built without a history, the composite
    fails the first assertion; built with one, a plain composite fails the
    second, and a concurrent composite fails it for every region and raises
    [IndexError] for an index beyond them. *)
Theorem fresh_handle_history limit (w : World T) :
  (∀ k sup has_history,
     ∃ self w',
       CompositeState__init__ k sup has_history w = (Ok self, w') ∧
       CompositeState__handle_history limit self w'
       = (Raise (AssertionError (if has_history : bool
                                 then no_state_to_return_to
                                 else history_is_None)), w')) ∧
  (∀ N sup has_history i,
     ∃ self w',
       ConcurrentCompositeState__init__ N sup has_history w = (Ok self, w') ∧
       ConcurrentCompositeState__handle_history limit self i w'
       = (Raise (if has_history : bool
                 then if bool_decide (i < Z.to_nat N)
                      then AssertionError no_state_to_return_to
                      else IndexError
                 else AssertionError history_is_None), w')).
Proof.
  split.
  - intros k sup [|]; (do 2 eexists; split; [reflexivity|]);
      unfold CompositeState__handle_history;
      (erewrite run_ok; [|eapply the_history_run, lookup_insert_eq]);
      cbn beta iota; [|done].
    erewrite run_attr; [|cbn; apply lookup_insert_eq]. reflexivity.
  - intros N sup [|] i; (do 2 eexists; split; [reflexivity|]);
      unfold ConcurrentCompositeState__handle_history;
      (erewrite run_ok; [|eapply the_history_run, lookup_insert_eq]);
      cbn beta iota; [|done].
    erewrite run_attr; [|cbn; apply lookup_insert_eq].
    case_bool_decide as Hi.
    + by rewrite lookup_replicate_2.
    + rewrite (proj1 (lookup_replicate_None _ _ _)); [done|lia].
Qed.

(** *** The transition table *)

(** X18: a table registered with [_set_transitions_per_state] is merged into
    the one that is there, its entries first; [do()] after it runs the do
    actions and then the transition function that the merged table has for
    the current child, the new one if both tables have one, and none if
    neither has. *)
Theorem registered_transition_runs (call : handle → M T unit) w self s
    (table new : gmap ref handle) :
  _state w !! self = Some s →
  _transitions_per_state w !! self = Some table →
  (_set_transitions_per_state self new;; CompositeState_do call self) w
  = match new !! s, table !! s with
    | Some h, _ | None, Some h => call h
    | None, None => ret tt
    end (with_trace (λ t, t ++ [Call do_actions self; Puml (p_do self)])
           (with_transitions <[self := new ∪ table]> w)).
Proof.
  intros Hs Ht. unfold _set_transitions_per_state.
  rewrite bind_run, (run_attr _ _ _ _ _ Ht). unfold modify at 1.
  unfold CompositeState_do, CompositeState__transitions. mrun.
  rewrite with_trace_app. cbn [app]. set (w1 := with_trace _ _).
  assert (Hs1 : _state w1 !! self = Some s) by done.
  assert (Ht1 : _transitions_per_state w1 !! self = Some (new ∪ table))
    by apply lookup_insert_eq.
  rewrite (run_attr _ _ _ _ _ Hs1), (run_attr _ _ _ _ _ Ht1).
  rewrite lookup_union. by destruct (new !! s), (table !! s).
Qed.

(** *** Events *)

(** X19: polls and clears of an event, in any number and order, change
    nothing but the flag of that event, which they leave cleared: its
    payload, the other events, the tick flags, the trace, the states and
    the stack are as they were. *)
Theorem polls_and_clears_are_local (a : ref) (e : EventObj T)
    (cs : list (EventCall T)) (w : World T) :
  events w !! a = Some e →
  forallb is_synchronous cs = true →
  perform_all a cs w
  = (Ok tt,
     match cs with
     | [] => w
     | _ => with_events <[a := set_flag false e]> w
     end).
Proof.
  revert e w. induction cs as [|c cs IH]; intros e w He Hcs; [reflexivity|].
  cbn [forallb] in Hcs. apply andb_true_iff in Hcs as [Hc Hcs].
  cbn [perform_all]. unfold attempt at 1. rewrite bind_run. cbn beta iota.
  set (w2 := with_events <[a := set_flag false e]> w).
  assert (Hstep : snd (perform a c w) = w2).
  { destruct c; try done; cbn [perform].
    - rewrite bind_run, (Event_call_run _ _ _ He).
      destruct (ev_event e) eqn:Hflag; [done|].
      cbn. subst w2. world_eq. rewrite insert_id; [done|].
      rewrite He. f_equal. destruct e. cbn in Hflag. by subst.
    - unfold Event_clear. by rewrite (run_attr _ _ _ _ _ He). }
  rewrite Hstep.
  assert (He2 : events w2 !! a = Some (set_flag false e)) by apply lookup_insert_eq.
  rewrite (IH _ _ He2 Hcs). f_equal.
  destruct cs; [done|]. subst w2. world_eq. by rewrite insert_insert_eq.
Qed.

(** X20: [clear()] discards a pending event: the next poll answers [False],
    whether or not the event was set; the payload and the tick flag stay as
    they are and nothing is logged. *)
Theorem clear_discards_event (a : ref) (e : EventObj T) (w : World T) :
  events w !! a = Some e →
  (Event_clear a;; Event__call__ a) w
  = (Ok false, with_events <[a := set_flag false e]> w).
Proof.
  intros He. unfold Event_clear.
  rewrite bind_run, (run_attr _ _ _ _ _ He). unfold modify. cbn beta iota.
  unfold Event__call__.
  erewrite run_attr; [|apply lookup_insert_eq]. done.
Qed.

(** *** [clear_active_states] *)

(** X21: once [clear_active_states()] has emptied the stack of a machine,
    [exit()] of a state of that machine runs its exit actions and then
    fails with [IndexError], for there is no top of the stack to compare
    with. *)
Theorem exit_after_clear_active_states limit (w : World T) self o m stk :
  objs w !! self = Some o →
  is_pseudo o = false →
  is_Some (_super_state o) →
  (∀ p, _super_state o = Some p → is_Some (objs w !! p)) →
  state_machine limit self (objs w) = Ok m →
  active_states w !! m = Some stk →
  (clear_active_states m;; State_exit limit self) w
  = (Raise IndexError,
     with_trace (λ t, t ++ exit_trace self) (with_active <[m := []]> w)).
Proof.
  intros Ho Hps Hsup Hp Hm Hs. unfold clear_active_states.
  rewrite bind_run, (run_attr _ _ _ _ _ Hs). unfold modify. cbn beta iota.
  erewrite State_exit_run; [|done..|apply lookup_insert_eq]. done.
Qed.

(** *** [active_state_types] *)

Lemma all_of_Ok {A B} (f : A → Res B) l l' :
  all_of f l = Ok l' → Forall2 (λ a b, f a = Ok b) l l'.
Proof.
  revert l'. induction l as [|a l IH]; intros l' H; cbn in H.
  - injection H as <-. constructor.
  - destruct (f a) eqn:Ha; [|done]. destruct (all_of f l); [|done].
    injection H as <-. constructor; auto.
Qed.

Lemma all_of_Raise {A B} (f : A → Res B) l e :
  all_of f l = Raise e → ∃ a, a ∈ l ∧ f a = Raise e.
Proof.
  induction l as [|a l IH]; intros H; cbn in H; [done|].
  destruct (f a) eqn:Ha.
  - destruct (all_of f l); [done|]. injection H as ->.
    destruct IH as (a' & Hin & Ha'); [done|].
    exists a'. split; [by apply list_elem_of_further|done].
  - injection H as ->. exists a. split; [apply list_elem_of_here|done].
Qed.

#[local] Instance str_le_total : Total str_le.
Proof. intros a b. apply String.leb_total. Qed.

Lemma item_types_Ok name limit os item r :
  item_types name limit os item = Ok r →
  match item with
  | Single s => ∃ n, r = inl n ∧ __str__ name limit s os = Ok n
  | Region ss =>
      ∃ ns, r = inr ns ∧ Sorted str_le ns ∧ length ns = size ss ∧
            (∀ n, n ∈ ns ↔ ∃ s, s ∈ ss ∧ __str__ name limit s os = Ok n) ∧
            ∃ ns0, Forall2 (λ s n, __str__ name limit s os = Ok n)
                     (elements ss) ns0 ∧
                   ns ≡ₚ ns0
  end.
Proof.
  destruct item as [s|ss]; cbn.
  - destruct (__str__ name limit s os) eqn:Hs; [|done].
    intros [= <-]. by eexists.
  - destruct (all_of _ _) as [ns|] eqn:Hns; [|done].
    intros [= <-]. apply all_of_Ok in Hns.
    eexists. split_and!; [done|apply Sorted_merge_sort, _|..];
      [| |exists ns; split; [exact Hns|apply merge_sort_Permutation]].
    + rewrite merge_sort_Permutation. symmetry. apply (Forall2_length _ _ _ Hns).
    + intros n. rewrite merge_sort_Permutation. split.
      * intros Hn. apply list_elem_of_lookup in Hn as [i Hi].
        destruct (Forall2_lookup_r _ _ _ _ _ Hns Hi) as (s & Hs & Hstr).
        exists s. split; [|done].
        apply elem_of_elements. by eapply list_elem_of_lookup_2.
      * intros (s & Hs & Hstr). apply elem_of_elements in Hs.
        apply list_elem_of_lookup in Hs as [i Hi].
        destruct (Forall2_lookup_l _ _ _ _ _ Hns Hi) as (n' & Hn' & Hstr').
        rewrite Hstr in Hstr'. injection Hstr' as <-.
        by eapply list_elem_of_lookup_2.
Qed.

(** X22: [active_state_types] reads the stack and changes nothing.  It
    fails only with the failure of [str()] of a state on the stack.
    Otherwise its answer has one item for each item of the stack but the
    bottom one, in the order of the stack: the name of a single state, and
    for a set of states the sorted list of the names of its members, one
    name for each member. *)
Theorem active_state_types_items name limit m (w : World T) stk :
  active_states w !! m = Some stk →
  ∃ r, active_state_types name limit m w = (r, w) ∧
       match r with
       | Raise e => ∃ s, on_stack s stk ∧ __str__ name limit s (objs w) = Raise e
       | Ok l =>
           length l = length stk - 1 ∧
           ∀ i, match stk !! S i with
                | None => l !! i = None
                | Some (Single s) =>
                    ∃ n, l !! i = Some (inl n) ∧
                         __str__ name limit s (objs w) = Ok n
                | Some (Region ss) =>
                    ∃ ns, l !! i = Some (inr ns) ∧
                          Sorted str_le ns ∧ length ns = size ss ∧
                          (∀ n, n ∈ ns ↔
                                ∃ s, s ∈ ss ∧
                                     __str__ name limit s (objs w) = Ok n) ∧
                          ∃ ns0, Forall2
                                   (λ s n, __str__ name limit s (objs w) = Ok n)
                                   (elements ss) ns0 ∧
                                 ns ≡ₚ ns0
                end
       end.
Proof.
  intros Hs. unfold active_state_types. rewrite (run_attr _ _ _ _ _ Hs).
  unfold reads. eexists. split; [reflexivity|].
  destruct (all_of _ stk) as [l|e] eqn:Hl.
  - apply all_of_Ok in Hl. split.
    + pose proof (Forall2_length _ _ _ Hl) as Hlen. destruct l; cbn in *; lia.
    + intros i. rewrite lookup_tail.
      destruct (stk !! S i) as [item|] eqn:Hi.
      * destruct (Forall2_lookup_l _ _ _ _ _ Hl Hi) as (r & Hr & Hitem).
        apply item_types_Ok in Hitem. rewrite Hr.
        destruct item as [s|ss].
        -- destruct Hitem as (n & -> & Hn). by exists n.
        -- destruct Hitem as (ns & -> & Hns). by exists ns.
      * apply lookup_ge_None. apply lookup_ge_None in Hi.
        by rewrite <- (Forall2_length _ _ _ Hl).
  - apply all_of_Raise in Hl as (item & Hin & Hitem).
    destruct item as [s|ss]; cbn in Hitem.
    + exists s. split; [by exists (Single s)|].
      by destruct (__str__ name limit s (objs w)); [|injection Hitem as ->].
    + destruct (all_of _ (elements ss)) eqn:Hss; [done|].
      injection Hitem as ->. apply all_of_Raise in Hss as (s & Hs' & Hstr).
      exists s. split; [|done]. exists (Region ss). split; [done|].
      by apply elem_of_elements.
Qed.

End Properties.

(** * The properties on the example machine *)

(** The stacks of the example, as the tests of the framework read them
    through [active_state_types]. *)
Example example_in_7_stack :
  active_states example_in_7 !! 0 = Some [Single 0; Single 3; Single 7].
Proof. vm_compute. reflexivity. Qed.

Example example_in_regions_stack :
  active_states example_in_regions !! 0
  = Some [Single 0; Single 9; Region {[13; 14]}].
Proof. vm_compute. reflexivity. Qed.

Example example_reentered_history :
  _state example_reentered !! 3 = Some 6 ∧
  state_to_return_to example_reentered !! 6 = Some (Some 7).
Proof. split; vm_compute; reflexivity. Qed.


(** The composite [3] moves to its [Final]. *)
Lemma composite_transition_to_post_witness :
  let w' := snd (CompositeState__transition_to 8 3 5 [] example_in_7) in
  _state w' !! 3 = Some 5 ∧
  (is_final (PseudoState Final 3) = true →
     ∃ m, state_machine 8 3 (objs example_in_7) = Ok m ∧
          _tick_event w' = <[m := true]> (_tick_event example_in_7)) ∧
  (is_final (PseudoState Final 3) = false →
     _tick_event w' = _tick_event example_in_7) ∧
  (5 = 5 → objs example_in_7 !! 5 = Some (PseudoState Final 3) →
     is_final (PseudoState Final 3) = true).
Proof.
  apply (composite_transition_to_post 8 example_in_7 3 Plain (Some 0) 4 5 (Some 6)
           5 (PseudoState Final 3) []).
  - reflexivity.
  - reflexivity.
  - vm_compute. reflexivity.
Defined.

(** The composite [3] exits at [7], and comes back to [7] through its history. *)
Lemma composite_history_witness :
  (let w' := snd (exit 8 3 example_in_7) in
   state_to_return_to w' !! 6 = Some (Some 7) ∧ _state w' !! 3 = Some 6) ∧
  (∃ w', CompositeState__handle_history 8 3 example_reentered = (Ok tt, w') ∧
         _state w' !! 3 = Some 7 ∧ state_to_return_to w' !! 6 = Some None ∧
         active_states w' !! 0 = Some [Single 0; Single 3; Single 7]).
Proof.
  split.
  - apply (composite_history 8 example_in_7 3 Plain (Some 0) 4 5 6).
    + reflexivity.
    + discriminate.
    + apply (bool_decide_unpack _). vm_compute. exact I.
    + reflexivity.
    + discriminate.
    + vm_compute. reflexivity.
  - eexists. split.
    + apply (composite_history 8 example_reentered 3 Plain (Some 0) 4 5 6 eq_refl
               ltac:(discriminate)) with (o_t := SimpleState (Some 3)) (stk := [Single 0; Single 3]);
        vm_compute; reflexivity.
    + vm_compute. repeat split.
Defined.

(** The concurrent composite [9] with its regions in [13] and [14]. *)
Lemma concurrent_is_at_final_state_iff_witness :
  ∃ b, ConcurrentCompositeState_is_at_final_state 9 example_in_regions
       = (Ok b, example_in_regions) ∧
       (b = true ↔ ∀ i, i < length [13; 14] → [13; 14] !! i = Some 11).
Proof.
  apply (concurrent_is_at_final_state_iff example_in_regions 9 (Some 0) 10 11 (Some 12));
    vm_compute; reflexivity.
Defined.

(** Two sets, then three polls of the event [15]. *)
Lemma event_polled_once_per_set_witness :
  ∃ w', (times 2 (Event_set 15);; times 3 (Event__call__ 15)) example_started
        = (Ok [true; false; false], w') ∧
        ev_event <$> events w' !! 15 = Some false.
Proof.
  apply (event_polled_once_per_set example_started 15 (mkEvent 0 "event" false None) 1 3).
  - reflexivity.
  - vm_compute. eauto.
Defined.


(** The [Final] of [3] as the target of a transition from [7]. *)
Lemma pseudo_state_hooks_never_run_witness :
  exit 8 5 example_in_7 = (Ok tt, example_in_7) ∧
  ∃ w', transition 8 7 5 [4] example_in_7 = (Ok 5, w') ∧
        trace w' = trace (snd (exit 8 7 example_in_7)) ++ [Action 4] ∧
        active_states w' !! 0 = Some [Single 0; Single 3].
Proof.
  destruct (pseudo_state_hooks_never_run 8 example_in_7 5 Final 3 eq_refl)
    as (Hexit & _ & Htr).
  split; [exact Hexit|].
  destruct (Htr 7 (SimpleState (Some 3)) [4] 0 (snd (exit 8 7 example_in_7))
              [Single 0; Single 3]) as (w' & Hrun & Htrace & Hstack).
  - reflexivity.
  - intros q [= <-]. vm_compute. eauto.
  - reflexivity.
  - vm_compute. reflexivity.
  - vm_compute. reflexivity.
  - discriminate.
  - exists w'. split; [exact Hrun|]. split; [exact Htrace|].
    rewrite (Hstack eq_refl). vm_compute. reflexivity.
Defined.

(** [do()] of the composite [3], which has no transition registered. *)
Lemma missing_transition_is_noop_witness :
  CompositeState_do (λ _, ret tt) 3 example_started
  = (Ok tt, with_trace (λ t, t ++ [Call do_actions 3; Puml (p_do 3)]) example_started).
Proof.
  apply (missing_transition_is_noop (λ _, ret tt) example_started) with (s := 4) (table := ∅);
    vm_compute; reflexivity.
Defined.

(** A payload survives a poll, a refused [set_value(None)] and a clear. *)
Lemma event_value_persists_witness :
  let w' := snd (perform_all 15 [c_set_value (Some 5); c_poll; c_set_value None; c_clear]
                   example_started) in
  EventWithValue_value 15 w' = (Ok 5, w').
Proof.
  apply (event_value_persists example_started 15 (mkEvent 0 "event" false None) eq_refl);
    reflexivity.
Defined.

(** A transition whose target is an [Initial] pushes it: [_handle_history]
    of a composite that was left before its initial transition. *)
Lemma pseudo_state_pushed :
  ∃ w', CompositeState__handle_history 8 3 example_left_early = (Ok tt, w') ∧
        objs w' !! 4 = Some (PseudoState Initial 3) ∧
        active_states w' !! 0 = Some [Single 0; Single 3; Single 4].
Proof. eexists. split; [vm_compute; reflexivity|]. split; vm_compute; reflexivity. Defined.

(** A machine and a composite are built, and no table has an entry for an
    [Initial]: construction does not fail. *)
Lemma construction_without_initial_entry :
  ∃ c ini fin w',
    bare_build empty_world = (Ok c, w') ∧
    objs w' !! c = Some (CompositeState Plain (Some 0) ini fin None) ∧
    _state w' !! c = Some ini ∧
    _transitions_per_state w' !! c = Some ∅.
Proof. do 4 eexists. split; [vm_compute; reflexivity|]. repeat split. Qed.

(** A concurrent composite of one region is built. *)
Lemma concurrent_init_one_region :
  ∃ c w',
    ConcurrentCompositeState__init__ (T := nat) 1 None false empty_world = (Ok c, w') ∧
    _states w' !! c = Some [1].
Proof. do 2 eexists. split; [vm_compute; reflexivity|]. vm_compute. reflexivity. Qed.

(** The composite [3] moves from [7] to [11], the [Final] of the composite
    [9] and not its own [Final] [5]: the tick event is set. *)
Lemma foreign_final_sets_tick :
  ∃ w', CompositeState__transition_to 8 3 11 [] example_in_7 = (Ok tt, w') ∧
        objs example_in_7 !! 3 = Some (CompositeState Plain (Some 0) 4 5 (Some 6)) ∧
        objs example_in_7 !! 11 = Some (PseudoState Final 9) ∧
        _tick_event example_in_7 !! 0 = Some false ∧
        _tick_event w' !! 0 = Some true.
Proof. eexists. split; [vm_compute; reflexivity|]. split_and!; vm_compute; reflexivity. Qed.


(** * More properties on the example machine *)

(** [8] is pushed on [[0; 3; 7]] and popped again. *)
Lemma activate_deactivate_witness :
  (activate 8 8;; deactivate 8 8) example_in_7 = (Ok tt, example_in_7).
Proof.
  apply (activate_deactivate 8 example_in_7 8 0 [Single 0; Single 3; Single 7]);
    vm_compute; reflexivity.
Defined.

(** [13] joins and leaves the region set of the example, where [14] stays. *)
Lemma activate_deactivate_concurrent_state_witness :
  let w := snd (deactivate_concurrent_state 8 13 example_in_regions) in
  (activate_concurrent_state 8 13;; deactivate_concurrent_state 8 13) w = (Ok tt, w).
Proof.
  apply (activate_deactivate_concurrent_state 8 _ 13 0
           [Single 0; Single 9; Region {[14]}]).
  - reflexivity.
  - vm_compute. reflexivity.
  - discriminate.
  - intros ss [= <-]. split; [by vm_compute|discriminate].
Defined.

(** [13] and [14] enter their regions from the stack [[0; 9]]. *)
Lemma activate_concurrent_state_groups_witness :
  let w := snd (CompositeState__transition_to 8 0 9 [] example_started) in
  (activate_concurrent_state 8 13;; activate_concurrent_state 8 14) w
  = (Ok tt, with_active <[0 := [Single 0; Single 9] ++ [Region ({[14]} ∪ {[13]})]]> w).
Proof.
  apply (activate_concurrent_state_groups 8 _ 13 14 0 [Single 0; Single 9] 9);
    vm_compute; reflexivity.
Defined.

(** The machine of the state [7], two levels down. *)
Lemma state_machine_is_machine_witness :
  (∃ o, objs example_in_7 !! 0 = Some o ∧ is_state_machine o = true) ∧
  (∀ limit', 2 ≤ limit' → state_machine limit' 7 (objs example_in_7) = Ok 0).
Proof.
  apply (state_machine_is_machine 2 7 (objs example_in_7) 0). reflexivity.
Defined.

(** In the stack [[0; 3; 7]], the composite [3] moves from [7] to [8] with
    the action [2]. *)
Lemma transition_between_children_witness :
  CompositeState__transition_to 8 3 8 [2] example_in_7
  = (Ok tt,
     with_state <[3 := 8]>
       (with_active <[0 := [Single 0; Single 3] ++ [Single 8]]>
          (with_trace
             (λ t, t ++ exit_trace 7 ++ [Puml (p_deactivate 7)]
                     ++ map Action [2]
                     ++ if is_pseudo (SimpleState (Some 3)) then []
                        else entry_trace 8)
             example_in_7))).
Proof.
  apply (transition_between_children 8 example_in_7 3 Plain (Some 0) 4 5 (Some 6)
           7 8 (SimpleState (Some 3)) [2] 0 [Single 0; Single 3]);
    first [discriminate | vm_compute; reflexivity].
Defined.

(** The machine, started, leaves its [Initial] for the composite [3]. *)
Lemma transition_from_pseudo_witness :
  CompositeState__transition_to 8 0 3 [2] example_started
  = (Ok tt,
     with_state <[0 := 3]>
       (with_active <[0 := [Single 0] ++ [Single 3]]>
          (with_trace
             (λ t, t ++ (map Action [2]
                         ++ if is_pseudo (CompositeState Plain (Some 0) 4 5 (Some 6))
                            then [] else entry_trace 3))
             example_started))).
Proof.
  apply (transition_from_pseudo 8 example_started 0 Machine None 1 2 None 1 Initial
           3 (CompositeState Plain (Some 0) 4 5 (Some 6)) [2] 0 [Single 0]);
    first [discriminate | vm_compute; reflexivity].
Defined.

(** The composite [3] completes from [7]. *)
Lemma transition_to_final_witness :
  let w' :=
    with_tick <[0 := true]>
      (with_state <[3 := 5]>
         (with_active <[0 := [Single 0; Single 3]]>
            (with_trace
               (λ tr, tr ++ exit_trace 7 ++ [Puml (p_deactivate 7)]
                        ++ map Action [2])
               example_in_7))) in
  CompositeState__transition_to 8 3 5 [2] example_in_7 = (Ok tt, w') ∧
  CompositeState_is_at_final_state 3 w' = (Ok true, w').
Proof.
  apply (transition_to_final 8 example_in_7 3 Plain (Some 0) 4 5 (Some 6) 7 [2] 0
           [Single 0; Single 3] false);
    first [discriminate | vm_compute; reflexivity].
Defined.

(** The composite [3] exits with its child [7], and remembers it. *)
Lemma exit_composite_with_child_witness :
  exit 8 3 example_in_7
  = (Ok tt,
     with_active <[0 := [Single 0]]>
       (with_trace
          (λ t, t ++ exit_trace 7 ++ [Puml (p_deactivate 7)]
                  ++ exit_trace 3 ++ [Puml (p_deactivate 3)])
          (remembered 3 7 4 5 (Some 6) example_in_7))).
Proof.
  apply (exit_composite_with_child 7 example_in_7 3 Plain 0
           (CompositeState Machine None 1 2 None) 4 5 (Some 6) 7 0 [Single 0]);
    first [discriminate | vm_compute; reflexivity].
Defined.

(** After its exit the composite [3] is at its history [6]. *)
Lemma exit_resets_completion_witness :
  let w' := snd (exit 8 3 example_in_7) in
  _state w' !! 3
  = Some (match Some 6 with
          | Some h => if bool_decide (7 ≠ 5) then h else 4
          | None => 4
          end) ∧
  (4 ≠ 5 → (∀ h, Some 6 = Some h → h ≠ 5) →
   CompositeState_is_at_final_state 3 w' = (Ok false, w')).
Proof.
  apply (exit_resets_completion 8 example_in_7 3 Plain (Some 0) 4 5 (Some 6) 7).
  - apply (bool_decide_unpack _). vm_compute. exact I.
  - vm_compute. reflexivity.
  - discriminate.
  - vm_compute. reflexivity.
  - vm_compute. reflexivity.
Defined.

(** Whatever exits or moves in the stack [[0; 3; 7]], the store stays in
    construction order. *)
Lemma well_ordered_kept_witness :
  (∀ self r w', exit 8 self example_in_7 = (r, w') → well_ordered w') ∧
  (∀ self new_state actions r w',
     self < new_state →
     CompositeState__transition_to 8 self new_state actions example_in_7 = (r, w') →
     well_ordered w') ∧
  (∀ self new_state i actions r w',
     self < new_state →
     ConcurrentCompositeState__transition_to 8 self new_state i actions example_in_7
     = (r, w') →
     well_ordered w').
Proof.
  apply (well_ordered_kept 8 example_in_7).
  apply (bool_decide_unpack _). vm_compute. exact I.
Defined.


(** The concurrent composite [9] has two regions: index [2] is beyond them,
    and region [0] may move from [13] to [13]. *)
Lemma concurrent_transition_to_post_witness :
  ConcurrentCompositeState__transition_to 8 9 13 2 [] example_in_regions
  = (Raise IndexError, example_in_regions) ∧
  (let w' := snd (ConcurrentCompositeState__transition_to 8 9 13 0 []
                    example_in_regions) in
   0 < length [13; 14] ∧
   _states w' !! 9 = Some (<[0 := 13]> [13; 14]) ∧
   _tick_event w' = _tick_event example_in_regions).
Proof.
  assert (Hw : well_ordered example_in_regions)
    by (apply (bool_decide_unpack _); vm_compute; exact I).
  assert (Hl : _states example_in_regions !! 9 = Some [13; 14])
    by (vm_compute; reflexivity).
  split.
  - pose proof (concurrent_transition_to_post 8 example_in_regions 9 [13; 14] 2 13 []
                  Hw Hl) as [H _].
    apply H. cbn. lia.
  - pose proof (concurrent_transition_to_post 8 example_in_regions 9 [13; 14] 0 13 []
                  Hw Hl) as [_ H].
    apply (H _). vm_compute. reflexivity.
Defined.

(** The concurrent composite [9] exits from [13] and [14]: both regions are
    at the history [12], which remembers [13] and [14]. *)
Lemma concurrent_exit_post_witness :
  let w' := snd (exit 8 9 example_in_regions) in
  match Some 12 with
  | Some h =>
      if existsb (λ s, bool_decide (s ≠ 11)) [13; 14]
      then _states w' !! 9 = Some (replicate (length [13; 14]) h) ∧
           states_to_return_to w' !! h = Some (Some <$> [13; 14])
      else _states w' !! 9 = Some (replicate (length [13; 14]) 10)
  | None => _states w' !! 9 = Some (replicate (length [13; 14]) 10)
  end.
Proof.
  apply (concurrent_exit_post 8 example_in_regions 9 (Some 0) 10 11 (Some 12)
           [13; 14]).
  - apply (bool_decide_unpack _). vm_compute. exact I.
  - vm_compute. reflexivity.
  - vm_compute. reflexivity.
  - intros h [= <-]. exists [None; None]. split; vm_compute; reflexivity.
  - vm_compute. reflexivity.
Defined.

(** The machine left [9] for [3] and came back: region [0] of [9] returns
    from the history to [13]; in the regions as they were first entered
    there is nothing to return to. *)
Lemma concurrent_handle_history_witness :
  let w := snd ((CompositeState__transition_to 8 0 3 [];;
                 CompositeState__transition_to 8 0 9 []) example_in_regions) in
  ConcurrentCompositeState__handle_history 8 9 2 w = (Raise IndexError, w) ∧
  ConcurrentCompositeState__handle_history 8 9 0 example_in_regions
  = (Raise (AssertionError no_state_to_return_to), example_in_regions) ∧
  ConcurrentCompositeState__handle_history 8 9 0 w
  = (Ok tt,
     with_returns <[12 := <[0 := None]> [Some 13; Some 14]]>
       (with_states <[9 := <[0 := 13]> [12; 12]]>
          ((if is_final (SimpleState (Some 9)) then id
            else with_active <[0 := activated true 13 [Single 0; Single 9]]>)
             (with_trace
                (λ tr, tr ++ if is_pseudo (SimpleState (Some 9)) then []
                             else entry_trace 13)
                w)))).
Proof.
  intros w.
  assert (Ho : objs w !! 9
               = Some (CompositeState Concurrent (Some 0) 10 11 (Some 12)))
    by (vm_compute; reflexivity).
  assert (Hl : _states w !! 9 = Some [12; 12]) by (vm_compute; reflexivity).
  assert (Hr : states_to_return_to w !! 12 = Some [Some 13; Some 14])
    by (vm_compute; reflexivity).
  pose proof (concurrent_handle_history 8 w 9 (Some 0) 10 11 12 [12; 12]
                [Some 13; Some 14] 2 Ho Hl Hr) as (H1 & _ & _).
  pose proof (concurrent_handle_history 8 w 9 (Some 0) 10 11 12 [12; 12]
                [Some 13; Some 14] 0 Ho Hl Hr) as (_ & _ & H3).
  split; [|split].
  - apply H1. reflexivity.
  - refine (proj1 (proj2 (concurrent_handle_history 8 example_in_regions 9
                            (Some 0) 10 11 12 [13; 14] [None; None] 0 _ _ _)) _);
      vm_compute; reflexivity.
  - apply (H3 13 (SimpleState (Some 9)) 12 ConcurrentHistory 0
             [Single 0; Single 9]);
      [vm_compute; reflexivity..|discriminate].
Defined.

(** Region [0] of [9] moves from [13] to [13]: it leaves the set of the
    regions and joins it again. *)
Lemma region_member_moves_witness :
  let stk1 := stack_without 13 ([Single 0; Single 9] ++ [Region ({[14]} ∪ {[13]})]) in
  ConcurrentCompositeState__transition_to 8 9 13 0 [2] example_in_regions
  = (Ok tt,
     with_states <[9 := <[0 := 13]> [13; 14]]>
       (with_active
          <[0 := if is_final (SimpleState (Some 9)) then stk1
                 else activated true 13 stk1]>
          (with_trace
             (λ t, t ++ exit_trace 13 ++ [Puml (p_deactivate 13)]
                     ++ map Action [2]
                     ++ if is_pseudo (SimpleState (Some 9)) then []
                        else entry_trace 13)
             example_in_regions))).
Proof.
  apply (region_member_moves 8 example_in_regions 9 (Some 0) 10 11 (Some 12)
           [13; 14] 0 13 13 (SimpleState (Some 9)) [2] 0 [Single 0; Single 9]
           ({[14]} ∪ {[13]}));
    first [discriminate
          | by apply (bool_decide_unpack _); vm_compute
          | vm_compute; reflexivity].
Defined.

(** A transition registered for [7] in the composite [3] runs at the next
    [do()] of [3]. *)
Lemma registered_transition_runs_witness :
  (_set_transitions_per_state 3 {[7 := 5]};;
   CompositeState_do (λ h, log (Action h)) 3) example_in_7
  = match ({[7 := 5]} : gmap ref handle) !! 7, (∅ : gmap ref handle) !! 7 with
    | Some h, _ | None, Some h => log (Action h)
    | None, None => ret tt
    end (with_trace (λ t, t ++ [Call do_actions 3; Puml (p_do 3)])
           (with_transitions <[3 := {[7 := 5]} ∪ ∅]> example_in_7)).
Proof.
  apply (registered_transition_runs (λ h, log (Action h)) example_in_7 3 7 ∅
           {[7 := 5]});
    vm_compute; reflexivity.
Defined.

(** The event [15], set, then polled, cleared and polled again. *)
Lemma polls_and_clears_are_local_witness :
  let w := snd (Event_set 15 example_started) in
  perform_all 15 [c_poll; c_clear; c_poll] w
  = (Ok tt,
     match [c_poll; c_clear; c_poll] : list (EventCall nat) with
     | [] => w
     | _ => with_events <[15 := set_flag false (mkEvent 0 "event" true None)]> w
     end).
Proof.
  apply (polls_and_clears_are_local 15 (mkEvent 0 "event" true None)).
  - vm_compute. reflexivity.
  - reflexivity.
Defined.

(** The event [15], set and cleared, answers [False]. *)
Lemma clear_discards_event_witness :
  let w := snd (Event_set 15 example_started) in
  (Event_clear 15;; Event__call__ 15) w
  = (Ok false,
     with_events <[15 := set_flag false (mkEvent 0 "event" true None)]> w).
Proof.
  apply (clear_discards_event 15 (mkEvent 0 "event" true None)).
  vm_compute. reflexivity.
Defined.

(** With the stack of the machine [0] cleared, [7] cannot exit. *)
Lemma exit_after_clear_active_states_witness :
  (clear_active_states 0;; State_exit 8 7) example_in_7
  = (Raise IndexError,
     with_trace (λ t, t ++ exit_trace 7) (with_active <[0 := []]> example_in_7)).
Proof.
  apply (exit_after_clear_active_states 8 example_in_7 7 (SimpleState (Some 3)) 0
           [Single 0; Single 3; Single 7]).
  - vm_compute. reflexivity.
  - reflexivity.
  - by eexists.
  - intros p [= <-]. eexists. vm_compute. reflexivity.
  - vm_compute. reflexivity.
  - vm_compute. reflexivity.
Defined.

(** The active state types of the example in its regions. *)
Lemma active_state_types_items_witness :
  let name : ref → string := λ _, "_State"%string in
  let stk := [Single 0; Single 9; Region ({[14]} ∪ {[13]})] in
  ∃ r, active_state_types name 8 0 example_in_regions = (r, example_in_regions) ∧
       match r with
       | Raise e =>
           ∃ s, on_stack s stk ∧ __str__ name 8 s (objs example_in_regions) = Raise e
       | Ok l =>
           length l = length stk - 1 ∧
           ∀ i, match stk !! S i with
                | None => l !! i = None
                | Some (Single s) =>
                    ∃ n, l !! i = Some (inl n) ∧
                         __str__ name 8 s (objs example_in_regions) = Ok n
                | Some (Region ss) =>
                    ∃ ns, l !! i = Some (inr ns) ∧
                          Sorted str_le ns ∧ length ns = size ss ∧
                          (∀ n, n ∈ ns ↔
                                ∃ s, s ∈ ss ∧
                                     __str__ name 8 s (objs example_in_regions)
                                     = Ok n) ∧
                          ∃ ns0, Forall2
                                   (λ s n, __str__ name 8 s (objs example_in_regions)
                                           = Ok n)
                                   (elements ss) ns0 ∧
                                 ns ≡ₚ ns0
                end
       end.
Proof.
  intros name stk.
  apply (active_state_types_items name 8 0 example_in_regions stk).
  vm_compute. reflexivity.
Defined.
